(** * Reverse LFSR counting for the LH2 lighthouse receiver

    A shallow embedding of [dotbot/lib/lh2.c]: the four tap masks
    [_polynomials], the checkpoint table [_end_buffers] and the routine
    [reverse_count_p], which walks a 17-bit linear-feedback shift register
    backwards until it meets the seed or one of the stored checkpoints.

    [uint32_t] and [uint8_t] values are integers of [Z]; wrap-around is
    written out with [wrap32] where the C arithmetic can wrap.  An array
    access outside the array's extent is undefined behaviour in C and is
    the outcome [OutOfBounds] here.  The [while] loop has no bound in the
    source, so the embedding takes a budget of loop-body executions and
    answers [OutOfFuel] when the budget is used up before the loop exits. *)

From Stdlib Require Import ZArith List Lia Bool String Ascii.
Import ListNotations.
Local Open Scope Z_scope.

(** ** Machine integers and literals *)

Definition wrap32 (x : Z) : Z := x mod 2 ^ 32.

(** The value of a C binary literal [0b...], given its digits. *)
Fixpoint bin_digits (s : string) (acc : Z) : Z :=
  match s with
  | EmptyString => acc
  | String c r => bin_digits r (2 * acc + (if Ascii.eqb c "1"%char then 1 else 0))
  end.

Definition bin (s : string) : Z := bin_digits s 0.

(** ** Outcomes of a partial computation *)

Inductive outcome (A : Type) : Type :=
| Done (a : A)
| OutOfBounds
| OutOfFuel.

Arguments Done {A} a.
Arguments OutOfBounds {A}.
Arguments OutOfFuel {A}.

Definition bind {A B : Type} (m : outcome A) (k : A -> outcome B) : outcome B :=
  match m with
  | Done a => k a
  | OutOfBounds => OutOfBounds
  | OutOfFuel => OutOfFuel
  end.

Notation "x <- m ;; k" := (bind m (fun x => k))
  (at level 61, m at next level, right associativity).

(** Reading element [i] of a C array modelled as a list. *)
Definition index_into {A : Type} (l : list A) (i : Z) : outcome A :=
  if i <? 0 then OutOfBounds
  else match nth_error l (Z.to_nat i) with
       | Some a => Done a
       | None => OutOfBounds
       end.

(** ** The constant tables *)

Definition _polynomials : list Z :=
  [ 0x0001D258;
    0x00017E04;
    0x0001FF6B;
    0x00013F67 ].

Definition _end_buffers : list (list Z) := Eval vm_compute in
  [ [ (* p0 *)
      0x00000000000000001;
      bin "10101010110011101";
      bin "10001010101011010";
      bin "11001100100000010";
      bin "01100101100011111";
      bin "10010001101011110";
      bin "10100011001011111";
      bin "11110001010110001";
      bin "10111000110011011";
      bin "10100110100011110";
      bin "11001101100010000";
      bin "01000101110011111";
      bin "11100101011110101";
      bin "01001001110110111";
      bin "11011100110011101";
      bin "10000110101101011" ];
    [ (* p1 *)
      0x00000000000000001;
      bin "11010000110111110";
      bin "10110111100111100";
      bin "11000010101101111";
      bin "00101110001101110";
      bin "01000011000110100";
      bin "00010001010011110";
      bin "10100101111010001";
      bin "10011000000100001";
      bin "01110011011010110";
      bin "00100011101000011";
      bin "10111011010000101";
      bin "00110010100110110";
      bin "01000111111100110";
      bin "10001101000111011";
      bin "00111100110011100" ];
    [ (* p2 *)
      0x00000000000000001;
      bin "00011011011000100";
      bin "01011101010010110";
      bin "11001011001101010";
      bin "01110001111011010";
      bin "10110110011111010";
      bin "10110001110000001";
      bin "10001001011101001";
      bin "00000010011101011";
      bin "01100010101111011";
      bin "00111000001101111";
      bin "10101011100111000";
      bin "01111110101111111";
      bin "01000011110101010";
      bin "01001011100000011";
      bin "00010110111101110" ];
    [ (* p3 *)
      0x00000000000000001;
      bin "11011011110010110";
      bin "11000100000001101";
      bin "11100011000010110";
      bin "00011111010001100";
      bin "11000001011110011";
      bin "10011101110001010";
      bin "00001011001111000";
      bin "00111100010000101";
      bin "01001111001010100";
      bin "01011010010110011";
      bin "11111101010001100";
      bin "00110101011011111";
      bin "01110110010101011";
      bin "00010000110100010";
      bin "00010111110101110" ] ].

(** [_polynomials[index]] *)
Definition polynomial_at (index : Z) : outcome Z :=
  index_into _polynomials index.

(** [_end_buffers[index][idx]] *)
Definition end_buffer_at (index idx : Z) : outcome Z :=
  row <- index_into _end_buffers index ;;
  index_into row idx.

(** ** The body of [reverse_count_p] *)

(** [for (ii = 0; ii < 17; ii++) result = result ^ ((masked_buff >> ii) & 1);] *)
Definition parity_loop (masked_buff result : Z) : Z :=
  fold_left
    (fun result ii => Z.lxor result (Z.land (Z.shiftr masked_buff ii) 0x00000001))
    (map Z.of_nat (seq 0 17)) result.

(** Lines 106-113: one step backwards in time, for the tap mask [poly]. *)
Definition reverse_step (poly buffer : Z) : Z :=
  let b17 := Z.land buffer 0x00000001 in
  let buffer := Z.shiftr (Z.land buffer 0x0001FFFE) 1 in
  let masked_buff := Z.land buffer poly in
  let result := parity_loop masked_buff 0 in
  let result := Z.lxor result b17 in
  Z.lor buffer (wrap32 (Z.shiftl result 16)).

(** Lines 117-120: the comparison against checkpoint [idx]. *)
Definition checkpoint_test (index idx : Z) (st : Z * Z) : outcome (Z * Z) :=
  let '(count, buffer) := st in
  e <- end_buffer_at index idx ;;
  if Z.lxor buffer e =? 0x00000000 then
    e0 <- end_buffer_at index 0 ;;
    Done (wrap32 (count + 8192 * idx - 1), e0)
  else Done (count, buffer).

(** [for (uint8_t idx = 1; idx < 16; idx++) ...] *)
Fixpoint checkpoint_loop (index : Z) (idxs : list Z) (st : Z * Z)
  : outcome (Z * Z) :=
  match idxs with
  | [] => Done st
  | idx :: rest =>
      st' <- checkpoint_test index idx st ;;
      checkpoint_loop index rest st'
  end.

Definition checkpoint_indices : list Z := map Z.of_nat (seq 1 15).

(** One execution of the body of the [while] loop on the pair
    [(count, buffer)]. *)
Definition loop_body (index : Z) (st : Z * Z) : outcome (Z * Z) :=
  let '(count, buffer) := st in
  poly <- polynomial_at index ;;
  let buffer := reverse_step poly buffer in
  let count := wrap32 (count + 1) in
  checkpoint_loop index checkpoint_indices (count, buffer).

(** The [while] loop; [fuel] bounds the number of executions of its body.
    The loop condition is tested first, also when no fuel is left. *)
Fixpoint while_loop (fuel : nat) (index : Z) (st : Z * Z) : outcome Z :=
  e0 <- end_buffer_at index 0 ;;
  if snd st =? e0 then Done (fst st)
  else match fuel with
       | O => OutOfFuel
       | S fuel' =>
           st' <- loop_body index st ;;
           while_loop fuel' index st'
       end.

Definition reverse_count_p (fuel : nat) (index bits : Z) : outcome Z :=
  let count := 0 in
  let buffer := Z.land bits 0x0001FFFFF in
  while_loop fuel index (count, buffer).

(** ** The forward transition and the orbit of the seed *)

(** The base station's forward step, written as the transition that
    [reverse_step] undoes: bits 0-15 move one place up, and the new low bit
    is bit 16 xor the parity of the tapped bits among bits 0-15. *)
Definition forward_step (poly state : Z) : Z :=
  let low := Z.land state 0x0000FFFF in
  let top := Z.land (Z.shiftr state 16) 0x00000001 in
  Z.lor (Z.shiftl low 1) (Z.lxor top (parity_loop (Z.land low poly) 0)).

(** The tap mask and the checkpoint row of a polynomial index, for
    statements about indices in range. *)
Definition poly_of (index : Z) : Z := nth (Z.to_nat index) _polynomials 0.
Definition row_of (index : Z) : list Z := nth (Z.to_nat index) _end_buffers [].
Definition checkpoint (index k : Z) : Z := nth (Z.to_nat k) (row_of index) 0.

Definition seed : Z := 1.

(** [n] forward steps under polynomial [index]. *)
Definition forward_n (index : Z) (n : nat) (state : Z) : Z :=
  Nat.iter n (forward_step (poly_of index)) state.

(** [n] reverse steps under polynomial [index]. *)
Definition reverse_n (index : Z) (n : nat) (buffer : Z) : Z :=
  Nat.iter n (reverse_step (poly_of index)) buffer.

(** A register state lies on the cycle of polynomial [index] when forward
    stepping from the seed reaches it. *)
Definition on_cycle (index state : Z) : Prop :=
  exists n : nat, forward_n index n seed = state.

(** The seed or a checkpoint of row [index]. *)
Definition is_mark (index x : Z) : bool := existsb (Z.eqb x) (row_of index).

(** No value occurs twice in the list. *)
Fixpoint distinct (l : list Z) : bool :=
  match l with
  | [] => true
  | x :: r => negb (existsb (Z.eqb x) r) && distinct r
  end.

(** The spacing the code adds per checkpoint, as a loop budget. *)
Definition spacing : nat := Z.to_nat 8192.

(** The cycle length of a 17-bit maximal-length register. *)
Definition period : Z := 131071.

(** The forward distance of checkpoint [k] from the seed. *)
Definition position (k : Z) : Z := if k =? 0 then 0 else 8192 * k - 1.

(** The distance from checkpoint [k] to the next one on the cycle. *)
Definition gap (k : Z) : Z := if k =? 0 then 8191 else 8192.

(** ** A faster forward step, for running through the whole orbit *)

(** The parity of the number of set bits. *)
Fixpoint pos_parity (q : positive) : bool :=
  match q with
  | xH => true
  | xO r => pos_parity r
  | xI r => negb (pos_parity r)
  end.

Definition bit_parity (m : Z) : Z :=
  match m with
  | Zpos q => Z.b2z (pos_parity q)
  | _ => 0
  end.

(** The parity loop over an arbitrary list of bit positions. *)
Definition xor_bits (m : Z) (l : list Z) (r : Z) : Z :=
  fold_left (fun result ii => Z.lxor result (Z.land (Z.shiftr m ii) 1)) l r.

(** [forward_step] with the 17-round parity loop replaced by [bit_parity];
    the two are proved equal below. *)
Definition fast_forward (poly state : Z) : Z :=
  let low := Z.land state 0x0000FFFF in
  let top := Z.land (Z.shiftr state 16) 0x00000001 in
  Z.lor (Z.shiftl low 1) (Z.lxor top (bit_parity (Z.land low poly))).

(** [seed_free_run index n x] steps forward [n] times from [x] and answers
    the state reached, provided none of the [n] states met is the seed. *)
Fixpoint seed_free_run (index : Z) (n : nat) (x : Z) : option Z :=
  match n with
  | O => Some x
  | S m =>
      let y := fast_forward (poly_of index) x in
      if y =? seed then None else seed_free_run index m y
  end.

(** From checkpoint [k] the next [gap k - 1] states are not the seed, and
    one more step lands on the following checkpoint (the seed after the
    last one). *)
Definition segment_ok (index k : Z) : bool :=
  match seed_free_run index (Z.to_nat (gap k - 1)) (checkpoint index k) with
  | Some y => fast_forward (poly_of index) y =? checkpoint index ((k + 1) mod 16)
  | None => false
  end.

(** Case analysis on a table index [H : In i [...]]. *)
Ltac each_case H :=
  cbn [In] in H; repeat (destruct H as [<- | H]); [.. | destruct H].

(** * Bit-level facts *)

Section Bits.

Lemma land_1_mod (x : Z) : Z.land x 1 = x mod 2.
Proof. exact (Z.land_ones x 1 ltac:(lia)). Qed.

Lemma bit_cases (x : Z) : x mod 2 = 0 \/ x mod 2 = 1.
Proof. pose proof (Z.mod_pos_bound x 2 ltac:(lia)). lia. Qed.

Lemma lxor_bits (a b : Z) :
  (a = 0 \/ a = 1) -> (b = 0 \/ b = 1) -> Z.lxor a b = 0 \/ Z.lxor a b = 1.
Proof. intros [-> | ->] [-> | ->]; cbn; auto. Qed.

Lemma lxor_bits_cancel (a b : Z) :
  (a = 0 \/ a = 1) -> (b = 0 \/ b = 1) -> Z.lxor (Z.lxor a b) a = b.
Proof. intros [-> | ->] [-> | ->]; reflexivity. Qed.

Lemma parity_fold_bit (m : Z) (l : list Z) (r : Z) :
  (r = 0 \/ r = 1) ->
  let r' := fold_left (fun result ii => Z.lxor result (Z.land (Z.shiftr m ii) 1)) l r in
  r' = 0 \/ r' = 1.
Proof.
  revert r. induction l as [| ii l IH]; intros r Hr; cbn; [exact Hr |].
  apply IH, lxor_bits; [exact Hr |].
  rewrite land_1_mod. apply bit_cases.
Qed.

Lemma parity_loop_bit (m : Z) : parity_loop m 0 = 0 \/ parity_loop m 0 = 1.
Proof. unfold parity_loop. apply parity_fold_bit. now left. Qed.

(** Two integers with no common bit position add up to their union. *)
Lemma lor_high_low (a b n : Z) :
  0 <= n -> 0 <= a < 2 ^ n -> Z.lor a (b * 2 ^ n) = a + b * 2 ^ n.
Proof.
  intros Hn Ha.
  assert (Hdisj : Z.land a (b * 2 ^ n) = 0).
  { apply Z.bits_inj'. intros i Hi.
    rewrite Z.land_spec, Z.bits_0.
    destruct (Z.lt_ge_cases i n) as [Hlt | Hge].
    - rewrite Z.mul_pow2_bits_low by lia. apply andb_false_r.
    - destruct (Z.eq_dec a 0) as [-> | Hnz]; [now rewrite Z.bits_0 |].
      rewrite (Z.bits_above_log2 a i); [reflexivity | lia |].
      apply Z.lt_le_trans with n; [| exact Hge].
      apply Z.log2_lt_pow2; lia. }
  rewrite <- Z.lxor_lor by exact Hdisj.
  symmetry. now apply Z.add_nocarry_lxor.
Qed.

(** The shifted register of [reverse_step]: bits 1-16 of the buffer. *)
Lemma shifted_buffer (b : Z) :
  Z.shiftr (Z.land b 0x0001FFFE) 1 = (b / 2) mod 2 ^ 16.
Proof.
  rewrite Z.shiftr_land.
  change (Z.shiftr 0x0001FFFE 1) with (Z.ones 16).
  rewrite Z.land_ones by lia.
  now rewrite Z.shiftr_div_pow2 by lia.
Qed.

(** [reverse_step] in arithmetic form. *)
Lemma reverse_step_arith (poly b : Z) :
  let h := (b / 2) mod 2 ^ 16 in
  reverse_step poly b
  = h + Z.lxor (parity_loop (Z.land h poly) 0) (b mod 2) * 2 ^ 16.
Proof.
  intros h. unfold reverse_step.
  rewrite shifted_buffer, land_1_mod. fold h.
  set (r := Z.lxor _ _).
  assert (Hr : r = 0 \/ r = 1)
    by (apply lxor_bits; [apply parity_loop_bit | apply bit_cases]).
  assert (Hw : wrap32 (Z.shiftl r 16) = r * 2 ^ 16).
  { unfold wrap32. rewrite Z.shiftl_mul_pow2 by lia.
    destruct Hr as [-> | ->]; reflexivity. }
  rewrite Hw. apply lor_high_low; [lia |].
  subst h. apply Z.mod_pos_bound. lia.
Qed.

Lemma reverse_step_range (poly b : Z) : 0 <= reverse_step poly b < 2 ^ 17.
Proof.
  rewrite reverse_step_arith.
  pose proof (Z.mod_pos_bound (b / 2) (2 ^ 16) ltac:(lia)) as Hh.
  set (r := Z.lxor _ _).
  assert (Hr : r = 0 \/ r = 1)
    by (apply lxor_bits; [apply parity_loop_bit | apply bit_cases]).
  change (2 ^ 17) with (2 * 2 ^ 16). lia.
Qed.

(** Bits 17 and above of the buffer never enter the step. *)
Lemma reverse_step_low17 (poly b : Z) :
  reverse_step poly (Z.land b 0x0001FFFF) = reverse_step poly b.
Proof.
  unfold reverse_step.
  rewrite <- !Z.land_assoc.
  reflexivity.
Qed.

(** [forward_step] in arithmetic form. *)
Lemma forward_step_arith (poly x : Z) :
  let h := x mod 2 ^ 16 in
  forward_step poly x
  = Z.lxor ((x / 2 ^ 16) mod 2) (parity_loop (Z.land h poly) 0) + h * 2.
Proof.
  intros h. unfold forward_step.
  change 0x0000FFFF with (Z.ones 16).
  rewrite Z.land_ones by lia. fold h.
  rewrite land_1_mod, Z.shiftr_div_pow2 by lia.
  rewrite Z.shiftl_mul_pow2 by lia.
  set (r := Z.lxor _ _).
  assert (Hr : r = 0 \/ r = 1)
    by (apply lxor_bits; [apply bit_cases | apply parity_loop_bit]).
  rewrite Z.lor_comm.
  change (2 ^ 1) with 2. change 2 with (2 ^ 1) at 1 2.
  apply lor_high_low; [lia |].
  change (2 ^ 1) with 2. lia.
Qed.

Lemma forward_step_range (poly x : Z) : 0 <= forward_step poly x < 2 ^ 17.
Proof.
  rewrite forward_step_arith.
  pose proof (Z.mod_pos_bound x (2 ^ 16) ltac:(lia)) as Hh.
  set (r := Z.lxor _ _).
  assert (Hr : r = 0 \/ r = 1)
    by (apply lxor_bits; [apply bit_cases | apply parity_loop_bit]).
  change (2 ^ 17) with (2 * 2 ^ 16). lia.
Qed.

Lemma lxor_bits_cancel' (a b : Z) :
  (a = 0 \/ a = 1) -> (b = 0 \/ b = 1) -> Z.lxor a (Z.lxor b a) = b.
Proof. intros [-> | ->] [-> | ->]; reflexivity. Qed.

(** Stepping back and then forward returns the register state. *)
Lemma forward_reverse (poly x : Z) :
  0 <= x < 2 ^ 17 -> forward_step poly (reverse_step poly x) = x.
Proof.
  intros Hx.
  rewrite forward_step_arith, reverse_step_arith.
  assert (Hrange : 0 <= x / 2 < 2 ^ 16).
  { change (2 ^ 17) with (2 * 2 ^ 16) in Hx.
    split; [apply Z.div_pos; lia | apply Z.div_lt_upper_bound; lia]. }
  rewrite (Z.mod_small (x / 2)) by exact Hrange.
  set (h := x / 2). set (par := parity_loop (Z.land h poly) 0).
  set (r := Z.lxor par (x mod 2)).
  assert (Hpar : par = 0 \/ par = 1) by apply parity_loop_bit.
  assert (Hl : x mod 2 = 0 \/ x mod 2 = 1) by apply bit_cases.
  assert (Hr : r = 0 \/ r = 1) by (apply lxor_bits; assumption).
  assert (Hlow : (h + r * 2 ^ 16) mod 2 ^ 16 = h)
    by (rewrite Z.mod_add by lia; now apply Z.mod_small).
  assert (Htop : ((h + r * 2 ^ 16) / 2 ^ 16) mod 2 = r).
  { rewrite Z.div_add by lia. rewrite (Z.div_small h) by exact Hrange.
    destruct Hr as [-> | ->]; reflexivity. }
  rewrite Hlow, Htop. fold par.
  subst r. rewrite lxor_bits_cancel by assumption.
  subst h. pose proof (Z.div_mod x 2 ltac:(lia)). lia.
Qed.

(** Stepping forward and then back returns the register state. *)
Lemma reverse_forward (poly x : Z) :
  0 <= x < 2 ^ 17 -> reverse_step poly (forward_step poly x) = x.
Proof.
  intros Hx.
  rewrite reverse_step_arith, forward_step_arith.
  set (h := x mod 2 ^ 16). set (par := parity_loop (Z.land h poly) 0).
  assert (Ht : (x / 2 ^ 16) mod 2 = x / 2 ^ 16).
  { apply Z.mod_small. change (2 ^ 17) with (2 ^ 16 * 2) in Hx.
    split; [apply Z.div_pos; lia | apply Z.div_lt_upper_bound; lia]. }
  assert (Htb : x / 2 ^ 16 = 0 \/ x / 2 ^ 16 = 1)
    by (rewrite <- Ht; apply bit_cases).
  rewrite Ht.
  set (t := x / 2 ^ 16) in *. set (r := Z.lxor t par).
  assert (Hpar : par = 0 \/ par = 1) by apply parity_loop_bit.
  assert (Hr : r = 0 \/ r = 1) by (apply lxor_bits; assumption).
  assert (Hrange : 0 <= h < 2 ^ 16) by (apply Z.mod_pos_bound; lia).
  assert (Hhalf : (r + h * 2) / 2 = h)
    by (rewrite Z.div_add by lia; destruct Hr as [-> | ->]; reflexivity).
  assert (Hbit : (r + h * 2) mod 2 = r)
    by (rewrite Z.mod_add by lia; destruct Hr as [-> | ->]; reflexivity).
  rewrite Hhalf, Hbit, (Z.mod_small h) by exact Hrange. fold par.
  subst r. rewrite lxor_bits_cancel' by assumption.
  subst h t. pose proof (Z.div_mod x (2 ^ 16) ltac:(lia)). lia.
Qed.

(** A 17-bit value passes the 21-bit and the 17-bit mask unchanged. *)
Lemma mask21_small (x : Z) : 0 <= x < 2 ^ 17 -> Z.land x 0x0001FFFFF = x.
Proof.
  intros Hx. change 0x0001FFFFF with (Z.ones 21).
  rewrite Z.land_ones by lia. apply Z.mod_small.
  change (2 ^ 21) with (16 * 2 ^ 17). lia.
Qed.

Lemma mask17_small (x : Z) : 0 <= x < 2 ^ 17 -> Z.land x 0x0001FFFF = x.
Proof.
  intros Hx. change 0x0001FFFF with (Z.ones 17).
  rewrite Z.land_ones by lia. now apply Z.mod_small.
Qed.

Lemma mask17_range (x : Z) : 0 <= Z.land x 0x0001FFFF < 2 ^ 17.
Proof.
  change 0x0001FFFF with (Z.ones 17).
  rewrite Z.land_ones by lia. apply Z.mod_pos_bound. lia.
Qed.

Lemma mask21_idem (x : Z) :
  Z.land (Z.land x 0x0001FFFFF) 0x0001FFFFF = Z.land x 0x0001FFFFF.
Proof. now rewrite <- Z.land_assoc. Qed.

Lemma mask21_mask17 (x : Z) :
  Z.land (Z.land x 0x0001FFFFF) 0x0001FFFF = Z.land x 0x0001FFFF.
Proof. now rewrite <- Z.land_assoc. Qed.

End Bits.

(** * The constant tables, read in range *)

Lemma index_cases (p : Z) : 0 <= p < 4 -> In p [0; 1; 2; 3].
Proof. intros H. cbn. lia. Qed.

Lemma entry_cases (k : Z) :
  0 <= k < 16 -> In k [0; 1; 2; 3; 4; 5; 6; 7; 8; 9; 10; 11; 12; 13; 14; 15].
Proof. intros H. cbn. lia. Qed.

Section TableFacts.

Lemma polynomial_at_in_range (p : Z) :
  0 <= p < 4 -> polynomial_at p = Done (poly_of p).
Proof. intros H. apply index_cases in H. each_case H; reflexivity. Qed.

Lemma end_buffer_at_in_range (p k : Z) :
  0 <= p < 4 -> 0 <= k < 16 -> end_buffer_at p k = Done (checkpoint p k).
Proof.
  intros Hp Hk. apply index_cases in Hp. apply entry_cases in Hk.
  each_case Hp; each_case Hk; reflexivity.
Qed.

Lemma checkpoint_0 (p : Z) : 0 <= p < 4 -> checkpoint p 0 = seed.
Proof. intros H. apply index_cases in H. each_case H; reflexivity. Qed.

Lemma end_buffer_at_seed (p : Z) : 0 <= p < 4 -> end_buffer_at p 0 = Done seed.
Proof.
  intros H. rewrite end_buffer_at_in_range by lia. now rewrite checkpoint_0.
Qed.

Lemma checkpoint_range (p k : Z) :
  0 <= p < 4 -> 0 <= k < 16 -> 0 <= checkpoint p k < 2 ^ 17.
Proof.
  intros Hp Hk. apply index_cases in Hp. apply entry_cases in Hk.
  each_case Hp; each_case Hk; vm_compute; split; congruence.
Qed.

Lemma seed_not_checkpoint (p k : Z) :
  0 <= p < 4 -> 1 <= k < 16 -> checkpoint p k <> seed.
Proof.
  intros Hp Hk. assert (Hk' : 0 <= k < 16) by lia.
  apply index_cases in Hp. apply entry_cases in Hk'.
  each_case Hp; each_case Hk'; try lia; vm_compute; congruence.
Qed.

Lemma row_length (p : Z) : 0 <= p < 4 -> List.length (row_of p) = 16%nat.
Proof. intros H. apply index_cases in H. each_case H; reflexivity. Qed.

Lemma checkpoint_in_row (p k : Z) :
  0 <= p < 4 -> 0 <= k < 16 -> In (checkpoint p k) (row_of p).
Proof.
  intros Hp Hk. unfold checkpoint. apply nth_In.
  rewrite row_length by exact Hp. lia.
Qed.

Lemma is_mark_false (p x e : Z) :
  is_mark p x = false -> In e (row_of p) -> x <> e.
Proof.
  unfold is_mark. intros Hm Hin ->.
  assert (Ht : existsb (Z.eqb e) (row_of p) = true)
    by (apply existsb_exists; exists e; split; [exact Hin | apply Z.eqb_refl]).
  congruence.
Qed.

Lemma is_mark_checkpoint (p k : Z) :
  0 <= p < 4 -> 0 <= k < 16 -> is_mark p (checkpoint p k) = true.
Proof.
  intros Hp Hk. apply existsb_exists. exists (checkpoint p k).
  split; [now apply checkpoint_in_row | apply Z.eqb_refl].
Qed.

Lemma is_mark_seed (p : Z) : 0 <= p < 4 -> is_mark p seed = true.
Proof. intros Hp. rewrite <- (checkpoint_0 p Hp). apply is_mark_checkpoint; lia. Qed.

Lemma checkpoint_indices_range (i : Z) :
  In i checkpoint_indices -> 1 <= i < 16.
Proof.
  unfold checkpoint_indices. rewrite in_map_iff.
  intros (n & <- & Hn). apply in_seq in Hn. lia.
Qed.

End TableFacts.

(** * The scan of the checkpoints after a reverse step *)

Section CheckpointLoop.

Variable p : Z.
Hypothesis Hp : 0 <= p < 4.

Lemma lxor_test (x e : Z) : (Z.lxor x e =? 0) = (x =? e).
Proof.
  destruct (Z.eqb_spec x e) as [-> | Hne].
  - now rewrite Z.lxor_nilpotent.
  - apply Z.eqb_neq. now rewrite Z.lxor_eq_0_iff.
Qed.

Lemma checkpoint_test_in_range (k c x : Z) :
  0 <= k < 16 ->
  checkpoint_test p k (c, x)
  = if x =? checkpoint p k then Done (wrap32 (c + 8192 * k - 1), seed)
    else Done (c, x).
Proof.
  intros Hk. unfold checkpoint_test.
  rewrite end_buffer_at_in_range by assumption. cbn [bind].
  rewrite lxor_test. destruct (x =? checkpoint p k); [| reflexivity].
  now rewrite end_buffer_at_seed.
Qed.

(** A buffer that is no checkpoint passes the scan unchanged. *)
Lemma checkpoint_loop_skip (idxs : list Z) (c x : Z) :
  (forall i, In i idxs -> 0 <= i < 16 /\ x <> checkpoint p i) ->
  checkpoint_loop p idxs (c, x) = Done (c, x).
Proof.
  induction idxs as [| i idxs IH]; intros H; [reflexivity |].
  cbn [checkpoint_loop].
  destruct (H i (or_introl eq_refl)) as [Hi Hne].
  rewrite checkpoint_test_in_range by exact Hi.
  apply Z.eqb_neq in Hne. rewrite Hne. cbn [bind].
  apply IH. intros j Hj. apply H. now right.
Qed.

Lemma checkpoint_loop_unmarked (c x : Z) :
  is_mark p x = false ->
  checkpoint_loop p checkpoint_indices (c, x) = Done (c, x).
Proof.
  intros Hm. apply checkpoint_loop_skip. intros i Hi.
  apply checkpoint_indices_range in Hi. split; [lia |].
  apply (is_mark_false p); [exact Hm | apply checkpoint_in_row; lia].
Qed.

Lemma checkpoint_loop_seed (idxs : list Z) (c : Z) :
  (forall i, In i idxs -> 1 <= i < 16) ->
  checkpoint_loop p idxs (c, seed) = Done (c, seed).
Proof.
  intros H. apply checkpoint_loop_skip. intros i Hi.
  specialize (H i Hi). split; [lia |].
  intros Heq. now apply (seed_not_checkpoint p i).
Qed.

(** The scan always completes, and it either leaves the buffer alone or
    replaces a checkpoint by the seed. *)
Lemma checkpoint_loop_total (idxs : list Z) :
  (forall i, In i idxs -> 1 <= i < 16) ->
  forall c x, exists c' x',
    checkpoint_loop p idxs (c, x) = Done (c', x') /\
    (x' = x \/ (x' = seed /\ exists k, 1 <= k < 16 /\ x = checkpoint p k)).
Proof.
  induction idxs as [| i idxs IH]; intros H c x.
  - exists c, x. split; [reflexivity | now left].
  - assert (Hi : 1 <= i < 16) by (apply H; now left).
    assert (H' : forall j, In j idxs -> 1 <= j < 16)
      by (intros j Hj; apply H; now right).
    cbn [checkpoint_loop]. rewrite checkpoint_test_in_range by lia.
    destruct (Z.eqb_spec x (checkpoint p i)) as [Heq | Hne]; cbn [bind].
    + rewrite checkpoint_loop_seed by exact H'.
      eexists _, _. split; [reflexivity |]. right. split; [reflexivity |].
      exists i. now split.
    + apply IH, H'.
Qed.

(** A buffer equal to checkpoint [k] is replaced by the seed and the count
    is moved to the checkpoint's distance. *)
Lemma checkpoint_loop_match (idxs : list Z) (k c : Z) :
  NoDup idxs -> (forall i, In i idxs -> 1 <= i < 16) -> In k idxs ->
  (forall i, In i idxs -> i <> k -> checkpoint p i <> checkpoint p k) ->
  checkpoint_loop p idxs (c, checkpoint p k)
  = Done (wrap32 (c + 8192 * k - 1), seed).
Proof.
  induction idxs as [| i idxs IH]; intros Hnd Hr Hin Hdist; [destruct Hin |].
  assert (Hi : 1 <= i < 16) by (apply Hr; now left).
  assert (Hr' : forall j, In j idxs -> 1 <= j < 16)
    by (intros j Hj; apply Hr; now right).
  inversion Hnd as [| ? ? Hnotin Hnd']; subst.
  cbn [checkpoint_loop]. rewrite checkpoint_test_in_range by lia.
  destruct (Z.eq_dec i k) as [-> | Hik].
  - rewrite Z.eqb_refl. cbn [bind]. now apply checkpoint_loop_seed.
  - destruct Hin as [Heq | Hin]; [contradiction |].
    assert (Hne : checkpoint p k <> checkpoint p i)
      by (intros E; apply (Hdist i (or_introl eq_refl) Hik); now symmetry).
    apply Z.eqb_neq in Hne. rewrite Hne. cbn [bind].
    apply IH; try assumption.
    intros j Hj. apply Hdist. now right.
Qed.

End CheckpointLoop.

(** * Distinct checkpoints *)

Section Distinct.

Lemma distinct_NoDup (l : list Z) : distinct l = true -> NoDup l.
Proof.
  induction l as [| x r IH]; cbn; intros H; constructor.
  - apply andb_prop in H as [H _]. apply negb_true_iff in H.
    intros Hin. assert (existsb (Z.eqb x) r = true); [| congruence].
    apply existsb_exists. exists x. split; [exact Hin | apply Z.eqb_refl].
  - apply IH. now apply andb_prop in H as [_ H].
Qed.

Lemma row_NoDup (p : Z) : 0 <= p < 4 -> NoDup (row_of p).
Proof.
  intros H. apply index_cases in H.
  each_case H; apply distinct_NoDup; vm_compute; reflexivity.
Qed.

Lemma checkpoint_injective (p i k : Z) :
  0 <= p < 4 -> 0 <= i < 16 -> 0 <= k < 16 ->
  checkpoint p i = checkpoint p k -> i = k.
Proof.
  intros Hp Hi Hk Heq. unfold checkpoint in Heq.
  pose proof (row_NoDup p Hp) as Hnd.
  rewrite (NoDup_nth (row_of p) 0) in Hnd.
  apply Hnd in Heq; rewrite ?row_length by exact Hp; lia.
Qed.

Lemma checkpoint_indices_NoDup : NoDup checkpoint_indices.
Proof. apply distinct_NoDup. vm_compute. reflexivity. Qed.

Lemma checkpoint_indices_In (k : Z) : 1 <= k < 16 -> In k checkpoint_indices.
Proof.
  intros Hk. unfold checkpoint_indices. apply in_map_iff.
  exists (Z.to_nat k). split; [lia | apply in_seq; lia].
Qed.

Lemma checkpoint_loop_hit (p k c : Z) :
  0 <= p < 4 -> 1 <= k < 16 ->
  checkpoint_loop p checkpoint_indices (c, checkpoint p k)
  = Done (wrap32 (c + 8192 * k - 1), seed).
Proof.
  intros Hp Hk. apply checkpoint_loop_match.
  - exact Hp.
  - exact checkpoint_indices_NoDup.
  - exact checkpoint_indices_range.
  - now apply checkpoint_indices_In.
  - intros i Hi Hne Heq. apply checkpoint_indices_range in Hi.
    apply Hne. apply (checkpoint_injective p); auto; lia.
Qed.

End Distinct.

(** * The fast forward step agrees with the forward step *)

Section FastForward.

Lemma shifted_bit (m i : Z) :
  0 <= i -> Z.land (Z.shiftr m i) 1 = Z.b2z (Z.testbit m i).
Proof.
  intros Hi.
  now rewrite land_1_mod, Z.shiftr_div_pow2, Z.testbit_spec' by exact Hi.
Qed.

Lemma xor_bits_cons (m i : Z) (l : list Z) (r : Z) :
  xor_bits m (i :: l) r = xor_bits m l (Z.lxor r (Z.land (Z.shiftr m i) 1)).
Proof. reflexivity. Qed.

Lemma xor_bits_succ (m : Z) (l : list Z) :
  (forall i, In i l -> 0 <= i) ->
  forall r, xor_bits m (map Z.succ l) r = xor_bits (Z.div2 m) l r.
Proof.
  induction l as [| i l IH]; intros Hl r; [reflexivity |].
  cbn [map]. rewrite !xor_bits_cons.
  rewrite IH by (intros j Hj; apply Hl; now right).
  assert (Hi : 0 <= i) by (apply Hl; now left).
  rewrite Z.div2_spec, Z.shiftr_shiftr by exact Hi.
  now rewrite Z.add_1_l.
Qed.

Lemma positions_succ (n : nat) :
  map Z.of_nat (seq 0 (S n)) = 0 :: map Z.succ (map Z.of_nat (seq 0 n)).
Proof.
  cbn [seq map]. f_equal.
  rewrite <- seq_shift, !map_map.
  apply map_ext. intros i. apply Nat2Z.inj_succ.
Qed.

Lemma bit_parity_step (m : Z) :
  0 <= m -> Z.lxor (Z.land m 1) (bit_parity (Z.div2 m)) = bit_parity m.
Proof.
  destruct m as [| q | q]; [reflexivity | | lia]. intros _.
  destruct q as [r | r |]; cbn; try reflexivity;
    now destruct (pos_parity r).
Qed.

Lemma xor_bits_parity (n : nat) :
  forall m r, 0 <= m < 2 ^ Z.of_nat n ->
  xor_bits m (map Z.of_nat (seq 0 n)) r = Z.lxor r (bit_parity m).
Proof.
  induction n as [| n IH]; intros m r Hm.
  - assert (m = 0) as -> by (cbn in Hm; lia). cbn. now rewrite Z.lxor_0_r.
  - rewrite positions_succ, xor_bits_cons.
    rewrite xor_bits_succ
      by (intros i Hi; apply in_map_iff in Hi as (j & <- & _); lia).
    rewrite Z.shiftr_0_r.
    rewrite Nat2Z.inj_succ, Z.pow_succ_r in Hm by lia.
    rewrite IH by (rewrite Z.div2_div; split;
                   [apply Z.div_pos | apply Z.div_lt_upper_bound]; lia).
    rewrite Z.lxor_assoc. f_equal. apply bit_parity_step. lia.
Qed.

Lemma parity_loop_xor_bits (m r : Z) :
  parity_loop m r = xor_bits m (map Z.of_nat (seq 0 17)) r.
Proof. unfold parity_loop, xor_bits. reflexivity. Qed.

Lemma parity_loop_bit_parity (m : Z) :
  0 <= m < 2 ^ 17 -> parity_loop m 0 = bit_parity m.
Proof.
  intros Hm. rewrite parity_loop_xor_bits.
  apply (xor_bits_parity 17 m 0 Hm).
Qed.

Lemma fast_forward_eq (poly x : Z) : fast_forward poly x = forward_step poly x.
Proof.
  unfold fast_forward, forward_step. do 2 f_equal.
  symmetry. apply parity_loop_bit_parity.
  rewrite <- Z.land_assoc, (Z.land_comm 0x0000FFFF), Z.land_assoc.
  change 0x0000FFFF with (Z.ones 16). rewrite Z.land_ones by lia.
  pose proof (Z.mod_pos_bound (Z.land x poly) (2 ^ 16) ltac:(lia)).
  change (2 ^ 17) with (2 * 2 ^ 16). lia.
Qed.

End FastForward.

(** * The orbit of the seed, by computation *)

Section Orbit.

(** Each of the 64 segments is checked by running the forward register
    through it. *)
Lemma segment_ok_true (p k : Z) :
  0 <= p < 4 -> 0 <= k < 16 -> segment_ok p k = true.
Proof.
  intros Hp Hk. apply index_cases in Hp. apply entry_cases in Hk.
  each_case Hp; each_case Hk; vm_compute; reflexivity.
Qed.

Lemma forward_n_S (p : Z) (n : nat) (x : Z) :
  forward_n p (S n) x = forward_step (poly_of p) (forward_n p n x).
Proof. reflexivity. Qed.

Lemma forward_n_S_r (p : Z) (n : nat) (x : Z) :
  forward_n p (S n) x = forward_n p n (forward_step (poly_of p) x).
Proof. apply Nat.iter_succ_r. Qed.

Lemma forward_n_add (p : Z) (a b : nat) (x : Z) :
  forward_n p (a + b) x = forward_n p a (forward_n p b x).
Proof. apply Nat.iter_add. Qed.

Lemma forward_n_range (p : Z) (n : nat) (x : Z) :
  0 <= x < 2 ^ 17 -> 0 <= forward_n p n x < 2 ^ 17.
Proof.
  intros Hx. destruct n as [| n]; [exact Hx |].
  rewrite forward_n_S. apply forward_step_range.
Qed.

Lemma seed_range : 0 <= seed < 2 ^ 17.
Proof. unfold seed. change (2 ^ 17) with 131072. lia. Qed.

Lemma reverse_n_S_r (p : Z) (n : nat) (b : Z) :
  reverse_n p (S n) b = reverse_n p n (reverse_step (poly_of p) b).
Proof. apply Nat.iter_succ_r. Qed.

Lemma reverse_n_forward_n (p : Z) (n : nat) (x : Z) :
  0 <= x < 2 ^ 17 -> reverse_n p n (forward_n p n x) = x.
Proof.
  intros Hx. induction n as [| n IH]; [reflexivity |].
  rewrite reverse_n_S_r, forward_n_S, reverse_forward; [exact IH |].
  now apply forward_n_range.
Qed.

Lemma seed_free_run_spec (p : Z) (n : nat) :
  forall x y, seed_free_run p n x = Some y ->
  y = forward_n p n x /\
  forall j, (1 <= j <= n)%nat -> forward_n p j x <> seed.
Proof.
  induction n as [| n IH]; intros x y H.
  - cbn in H. injection H as <-. split; [reflexivity | intros j Hj; lia].
  - cbn [seed_free_run] in H. rewrite fast_forward_eq in H.
    destruct (Z.eqb_spec (forward_step (poly_of p) x) seed) as [| Hne];
      [discriminate |].
    apply IH in H as [-> Hfree]. split; [now rewrite forward_n_S_r |].
    intros [| j] Hj; [lia |]. rewrite forward_n_S_r.
    destruct j as [| j]; [exact Hne |]. apply Hfree. lia.
Qed.

(** Between checkpoint [k] and the next one the seed does not occur. *)
Lemma segment_seed_free (p k : Z) :
  0 <= p < 4 -> 0 <= k < 16 ->
  (forall j, (1 <= j < Z.to_nat (gap k))%nat ->
             forward_n p j (checkpoint p k) <> seed) /\
  forward_n p (Z.to_nat (gap k)) (checkpoint p k)
  = checkpoint p ((k + 1) mod 16).
Proof.
  intros Hp Hk. pose proof (segment_ok_true p k Hp Hk) as H.
  unfold segment_ok in H.
  destruct (seed_free_run p (Z.to_nat (gap k - 1)) (checkpoint p k))
    as [y |] eqn:Hrun; [| discriminate].
  apply Z.eqb_eq in H. rewrite fast_forward_eq in H.
  apply seed_free_run_spec in Hrun as [-> Hfree].
  assert (Hgap : Z.to_nat (gap k) = S (Z.to_nat (gap k - 1)))
    by (unfold gap; destruct (k =? 0); lia).
  split.
  - intros j Hj. apply Hfree. lia.
  - now rewrite Hgap, forward_n_S.
Qed.

Lemma position_next (k : Z) :
  0 <= k < 16 -> position k + gap k = if k =? 15 then period else position (k + 1).
Proof.
  intros Hk. unfold position, gap, period.
  destruct (Z.eqb_spec k 0) as [-> | H0]; [reflexivity |].
  destruct (Z.eqb_spec k 15) as [-> | H15]; [reflexivity |].
  destruct (Z.eqb_spec (k + 1) 0); lia.
Qed.

(** Checkpoint [k] is the state [position k] steps after the seed. *)
Lemma checkpoint_position (p : Z) (k : nat) :
  0 <= p < 4 -> (k < 16)%nat ->
  forward_n p (Z.to_nat (position (Z.of_nat k))) seed = checkpoint p (Z.of_nat k).
Proof.
  intros Hp. induction k as [| k IH]; intros Hk.
  - cbn. symmetry. now apply checkpoint_0.
  - specialize (IH ltac:(lia)).
    destruct (segment_seed_free p (Z.of_nat k) Hp ltac:(lia)) as [_ Hnext].
    pose proof (position_next (Z.of_nat k) ltac:(lia)) as Hpos.
    destruct (Z.eqb_spec (Z.of_nat k) 15) as [E | _]; [lia |].
    replace (Z.of_nat (S k)) with (Z.of_nat k + 1) by lia.
    rewrite <- Hpos.
    replace (Z.to_nat (position (Z.of_nat k) + gap (Z.of_nat k)))
      with (Z.to_nat (gap (Z.of_nat k)) + Z.to_nat (position (Z.of_nat k)))%nat
      by (unfold position, gap; destruct (Z.eqb_spec (Z.of_nat k) 0); lia).
    rewrite forward_n_add, IH, Hnext.
    f_equal. apply Z.mod_small. lia.
Qed.

Lemma checkpoint_at_position (p k : Z) :
  0 <= p < 4 -> 0 <= k < 16 ->
  forward_n p (Z.to_nat (position k)) seed = checkpoint p k.
Proof.
  intros Hp Hk. rewrite <- (Z2Nat.id k) by lia.
  apply checkpoint_position; [exact Hp | lia].
Qed.

(** After [period] steps the seed comes back. *)
Lemma period_returns (p : Z) :
  0 <= p < 4 -> forward_n p (Z.to_nat period) seed = seed.
Proof.
  intros Hp.
  destruct (segment_seed_free p 15 Hp ltac:(lia)) as [_ Hnext].
  replace (Z.to_nat period)
    with (Z.to_nat (gap 15) + Z.to_nat (position 15))%nat
    by (rewrite <- Z2Nat.inj_add; [reflexivity | ..]; discriminate).
  rewrite forward_n_add, checkpoint_at_position, Hnext by lia.
  now apply checkpoint_0.
Qed.

(** Every distance below the period lies in exactly one segment. *)
Lemma position_split (s : Z) :
  0 < s < period ->
  exists k j,
    0 <= k < 16 /\ 1 <= j <= gap k /\ s = position k + j /\
    (j = gap k -> k < 15).
Proof.
  intros Hs. unfold period in Hs.
  pose proof (Z.div_mod s 8192 ltac:(lia)) as Hdm.
  pose proof (Z.mod_pos_bound s 8192 ltac:(lia)) as Hmod.
  exists (s / 8192), (s - position (s / 8192)).
  unfold position, gap. destruct (Z.eqb_spec (s / 8192) 0); lia.
Qed.

Lemma forward_n_split (p k j : Z) :
  0 <= p < 4 -> 0 <= k < 16 -> 0 <= j ->
  forward_n p (Z.to_nat (position k + j)) seed
  = forward_n p (Z.to_nat j) (checkpoint p k).
Proof.
  intros Hp Hk Hj.
  assert (Hposk : 0 <= position k)
    by (unfold position; destruct (Z.eqb_spec k 0); lia).
  replace (Z.to_nat (position k + j))
    with (Z.to_nat j + Z.to_nat (position k))%nat by lia.
  now rewrite forward_n_add, checkpoint_at_position.
Qed.

(** The seed does not come back before the period is over. *)
Lemma no_early_seed (p s : Z) :
  0 <= p < 4 -> 0 < s < period ->
  forward_n p (Z.to_nat s) seed <> seed.
Proof.
  intros Hp Hs.
  destruct (position_split s Hs) as (k & j & Hk & Hj & -> & Hlast).
  rewrite forward_n_split by (try assumption; lia).
  destruct (segment_seed_free p k Hp Hk) as [Hfree Hnext].
  destruct (Z.eq_dec j (gap k)) as [-> | Hin].
  - rewrite Hnext, Z.mod_small by lia.
    apply seed_not_checkpoint; [exact Hp | lia].
  - apply Hfree. lia.
Qed.

(** So the states at distinct distances below the period are distinct. *)
Lemma orbit_injective (p i j : Z) :
  0 <= p < 4 -> 0 <= i < j -> j < period ->
  forward_n p (Z.to_nat i) seed <> forward_n p (Z.to_nat j) seed.
Proof.
  intros Hp Hij Hj Heq.
  apply (no_early_seed p (j - i) Hp ltac:(lia)).
  apply (f_equal (reverse_n p (Z.to_nat i))) in Heq.
  replace (Z.to_nat j) with (Z.to_nat i + Z.to_nat (j - i))%nat in Heq by lia.
  rewrite forward_n_add in Heq.
  rewrite !reverse_n_forward_n in Heq
    by (try apply forward_n_range; apply seed_range).
  now symmetry.
Qed.

Lemma is_mark_false_intro (p x : Z) :
  (forall e, In e (row_of p) -> x <> e) -> is_mark p x = false.
Proof.
  intros H. unfold is_mark.
  destruct (existsb (Z.eqb x) (row_of p)) eqn:E; [| reflexivity].
  apply existsb_exists in E as (e & Hin & He).
  apply Z.eqb_eq in He. now apply H in Hin.
Qed.

Lemma row_entry (p e : Z) :
  0 <= p < 4 -> In e (row_of p) -> exists k, 0 <= k < 16 /\ e = checkpoint p k.
Proof.
  intros Hp Hin. apply (In_nth _ _ 0) in Hin as (n & Hn & <-).
  rewrite row_length in Hn by exact Hp.
  exists (Z.of_nat n). split; [lia |].
  unfold checkpoint. now rewrite Nat2Z.id.
Qed.

(** Between checkpoint [k] and the next one lie [gap k - 1] states that are
    neither seed nor checkpoint. *)
Lemma segment_spec (p k : Z) :
  0 <= p < 4 -> 0 <= k < 16 ->
  (forall j, (1 <= j < Z.to_nat (gap k))%nat ->
             is_mark p (forward_n p j (checkpoint p k)) = false) /\
  forward_n p (Z.to_nat (gap k)) (checkpoint p k)
  = checkpoint p ((k + 1) mod 16).
Proof.
  intros Hp Hk. split; [| now apply segment_seed_free].
  intros j Hj. apply is_mark_false_intro. intros e He.
  destruct (row_entry p e Hp He) as (k' & Hk' & ->).
  rewrite <- (Nat2Z.id j), <- forward_n_split by (try assumption; lia).
  rewrite <- (checkpoint_at_position p k') by assumption.
  assert (Hgap : Z.of_nat j < gap k) by lia.
  assert (Hlt : position k + Z.of_nat j < period)
    by (unfold position, gap, period in *; destruct (Z.eqb_spec k 0); lia).
  assert (Hk'pos : 0 <= position k' < period)
    by (unfold position, period; destruct (Z.eqb_spec k' 0); lia).
  destruct (Z.lt_ge_cases k k') as [Hup | Hdown].
  - apply orbit_injective; [exact Hp | | lia].
    unfold position, gap in *.
    destruct (Z.eqb_spec k 0), (Z.eqb_spec k' 0); lia.
  - intros E. symmetry in E. revert E.
    apply orbit_injective; [exact Hp | | lia].
    unfold position, gap in *.
    destruct (Z.eqb_spec k 0), (Z.eqb_spec k' 0); lia.
Qed.

End Orbit.

(** * The while loop *)

Lemma reverse_count_p_eq (fuel : nat) (index bits : Z) :
  reverse_count_p fuel index bits
  = while_loop fuel index (0, Z.land bits 0x0001FFFFF).
Proof. reflexivity. Qed.

Lemma spacing_Z : Z.of_nat spacing = 8192.
Proof. unfold spacing. now rewrite Z2Nat.id. Qed.

Lemma wrap32_small (x : Z) : 0 <= x < 2 ^ 32 -> wrap32 x = x.
Proof. apply Z.mod_small. Qed.

Section WhileLoop.

Variable p : Z.
Hypothesis Hp : 0 <= p < 4.

Lemma while_loop_eq (fuel : nat) (st : Z * Z) :
  while_loop fuel p st
  = if snd st =? seed then Done (fst st)
    else match fuel with
         | O => OutOfFuel
         | S fuel' => st' <- loop_body p st ;; while_loop fuel' p st'
         end.
Proof.
  destruct fuel; cbn [while_loop]; rewrite end_buffer_at_seed by exact Hp;
    reflexivity.
Qed.

Lemma while_loop_at_seed (fuel : nat) (c : Z) :
  while_loop fuel p (c, seed) = Done c.
Proof. rewrite while_loop_eq. reflexivity. Qed.

Lemma loop_body_eq (c x : Z) :
  loop_body p (c, x)
  = checkpoint_loop p checkpoint_indices
      (wrap32 (c + 1), reverse_step (poly_of p) x).
Proof. unfold loop_body. now rewrite polynomial_at_in_range by exact Hp. Qed.

(** The body always completes; its buffer is the reverse step of the old
    one, or the seed when that reverse step is a checkpoint. *)
Lemma loop_body_total (c x : Z) :
  exists c' x',
    loop_body p (c, x) = Done (c', x') /\
    (x' = reverse_step (poly_of p) x \/
     (x' = seed /\
      exists k, 1 <= k < 16 /\ reverse_step (poly_of p) x = checkpoint p k)).
Proof.
  rewrite loop_body_eq.
  apply checkpoint_loop_total; [exact Hp | exact checkpoint_indices_range].
Qed.

(** More fuel never changes a result. *)
Lemma fuel_monotone (fuel : nat) :
  forall st c, while_loop fuel p st = Done c ->
  forall fuel', (fuel <= fuel')%nat -> while_loop fuel' p st = Done c.
Proof.
  induction fuel as [| fuel IH]; intros st c H fuel' Hle;
    rewrite while_loop_eq in H; rewrite while_loop_eq;
    destruct (snd st =? seed); try exact H; try discriminate.
  destruct fuel' as [| fuel']; [lia |].
  destruct (loop_body p st) as [st' | |]; cbn [bind] in *; try discriminate.
  apply (IH st' c H). lia.
Qed.

(** Running short of fuel stays short with less fuel. *)
Lemma fuel_shortage (fuel fuel' : nat) (st : Z * Z) :
  while_loop fuel p st = OutOfFuel -> (fuel' <= fuel)%nat ->
  while_loop fuel' p st = OutOfFuel.
Proof.
  intros H Hle.
  destruct (while_loop fuel' p st) as [c | |] eqn:E; [| | reflexivity].
  - rewrite (fuel_monotone fuel' st c E fuel Hle) in H. discriminate.
  - exfalso. clear H Hle. revert st E.
    induction fuel' as [| f IH]; intros st E; rewrite while_loop_eq in E;
      destruct (snd st =? seed); try discriminate.
    destruct st as [c x].
    destruct (loop_body_total c x) as (c' & x' & Hb & _).
    rewrite Hb in E. cbn [bind] in E. now apply (IH _ E).
Qed.

(** From a state [j + 1] steps after checkpoint [k], with only unmarked
    states in between, the loop takes [j + 1] iterations and returns the
    state's distance from the seed. *)
Lemma while_loop_segment (k : Z) (Hk : 0 <= k < 16) :
  forall (j fuel : nat) (count : Z),
    (j < fuel)%nat ->
    (forall i, (1 <= i <= j)%nat ->
               is_mark p (forward_n p i (checkpoint p k)) = false) ->
    forward_n p (S j) (checkpoint p k) <> seed ->
    0 <= count -> count + Z.of_nat (S j) + 8192 * 16 < 2 ^ 32 ->
    while_loop fuel p (count, forward_n p (S j) (checkpoint p k))
    = Done (count + Z.of_nat (S j) + position k).
Proof.
  induction j as [| j IH]; intros fuel count Hfuel Hclean Hns Hc Hbound;
    (destruct fuel as [| fuel]; [lia |]);
    rewrite while_loop_eq; cbn [fst snd];
    apply Z.eqb_neq in Hns; rewrite Hns;
    rewrite loop_body_eq, forward_n_S, reverse_forward
      by (apply forward_n_range, checkpoint_range; assumption);
    rewrite (wrap32_small (count + 1)) by lia.
  - change (forward_n p 0 (checkpoint p k)) with (checkpoint p k).
    unfold position.
    destruct (Z.eqb_spec k 0) as [-> | Hk0].
    + rewrite checkpoint_0, checkpoint_loop_seed
        by (try exact Hp; exact checkpoint_indices_range).
      cbn [bind]. rewrite while_loop_at_seed. f_equal. lia.
    + rewrite checkpoint_loop_hit by (try exact Hp; lia).
      cbn [bind]. rewrite while_loop_at_seed, wrap32_small by lia.
      f_equal. lia.
  - assert (Hm : is_mark p (forward_n p (S j) (checkpoint p k)) = false)
      by (apply Hclean; lia).
    rewrite checkpoint_loop_unmarked by assumption. cbn [bind].
    rewrite IH; [f_equal; lia | lia | | | lia | lia].
    + intros i Hi. apply Hclean. lia.
    + intros E. rewrite E, is_mark_seed in Hm by exact Hp. discriminate Hm.
Qed.

(** Functional correctness: on the state [s] steps after the seed the
    routine returns [s], within [spacing] iterations. *)
Lemma reverse_count_position (s : Z) :
  0 <= s < period ->
  reverse_count_p spacing p (forward_n p (Z.to_nat s) seed) = Done s.
Proof.
  intros Hs. rewrite reverse_count_p_eq.
  rewrite mask21_small by apply forward_n_range, seed_range.
  destruct (Z.eq_dec s 0) as [-> | Hs0]; [apply while_loop_at_seed |].
  destruct (position_split s ltac:(lia)) as (k & j & Hk & Hj & -> & Hlast).
  rewrite forward_n_split by (try assumption; lia).
  destruct (segment_spec p k Hp Hk) as [Hclean Hnext].
  assert (Hnat : Z.to_nat j = S (Z.to_nat (j - 1))) by lia.
  rewrite Hnat. rewrite (while_loop_segment k Hk).
  - f_equal. lia.
  - pose proof spacing_Z. unfold gap in Hj. destruct (k =? 0); lia.
  - intros i Hi. apply Hclean. lia.
  - rewrite <- Hnat.
    destruct (Z.eq_dec j (gap k)) as [-> | Hin].
    + rewrite Hnext, Z.mod_small by lia.
      apply seed_not_checkpoint; [exact Hp | lia].
    + intros E.
      assert (Hm : is_mark p (forward_n p (Z.to_nat j) (checkpoint p k)) = false)
        by (apply Hclean; lia).
      rewrite E, is_mark_seed in Hm by exact Hp. discriminate Hm.
  - lia.
  - unfold gap in Hj. change (2 ^ 32) with 4294967296.
    destruct (k =? 0); lia.
Qed.

End WhileLoop.

(** * States on and off the cycle *)

Section Cycle.

Variable p : Z.
Hypothesis Hp : 0 <= p < 4.

Lemma on_cycle_range (x : Z) : on_cycle p x -> 0 <= x < 2 ^ 17.
Proof. intros [n <-]. apply forward_n_range, seed_range. Qed.

Lemma on_cycle_checkpoint (k : Z) : 0 <= k < 16 -> on_cycle p (checkpoint p k).
Proof.
  intros Hk. exists (Z.to_nat (position k)). now apply checkpoint_at_position.
Qed.

Lemma forward_n_periods (q : nat) :
  forward_n p (q * Z.to_nat period) seed = seed.
Proof.
  induction q as [| q IH]; [reflexivity |].
  rewrite Nat.mul_succ_l, forward_n_add, period_returns by exact Hp.
  exact IH.
Qed.

(** Every state on the cycle has a distance below the period. *)
Lemma on_cycle_position (x : Z) :
  on_cycle p x ->
  exists s, 0 <= s < period /\ forward_n p (Z.to_nat s) seed = x.
Proof.
  intros [n <-].
  set (T := Z.to_nat period).
  assert (HT : T <> 0%nat) by (subst T; unfold period; lia).
  pose proof (Nat.div_mod_eq n T) as Hdm.
  pose proof (Nat.mod_upper_bound n T HT) as Hlt.
  exists (Z.of_nat (n mod T)). split; [subst T; lia |].
  rewrite Nat2Z.id. rewrite Hdm at 2.
  rewrite (Nat.mul_comm T), Nat.add_comm, forward_n_add.
  subst T. now rewrite forward_n_periods.
Qed.

Lemma reverse_step_zero (poly : Z) : reverse_step poly 0 = 0.
Proof. reflexivity. Qed.

Lemma reverse_n_zero (n : nat) : reverse_n p n 0 = 0.
Proof.
  induction n as [| n IH]; [reflexivity |].
  now rewrite reverse_n_S_r, reverse_step_zero.
Qed.

Lemma zero_off_cycle : ~ on_cycle p 0.
Proof.
  intros [n Hn].
  pose proof (reverse_n_forward_n p n seed seed_range) as H.
  rewrite Hn, reverse_n_zero in H. discriminate.
Qed.

(** The loop can only exit on a buffer whose register bits lie on the
    cycle. *)
Lemma while_loop_done_on_cycle (fuel : nat) :
  forall count b c,
    while_loop fuel p (count, b) = Done c ->
    on_cycle p (Z.land b 0x0001FFFF).
Proof.
  induction fuel as [| fuel IH]; intros count b c H;
    rewrite while_loop_eq in H by exact Hp; cbn [fst snd] in H;
    (destruct (Z.eqb_spec b seed) as [-> | Hne]; [now exists 0%nat |]);
    [discriminate |].
  destruct (loop_body_total p Hp count b) as (c' & x' & Hb & Hx).
  rewrite Hb in H. cbn [bind] in H. apply IH in H.
  assert (Hrev : on_cycle p (reverse_step (poly_of p) b)).
  { destruct Hx as [-> | (-> & k & Hk & ->)].
    - now rewrite mask17_small in H by apply reverse_step_range.
    - apply on_cycle_checkpoint. lia. }
  destruct Hrev as [n Hn]. exists (S n).
  rewrite forward_n_S, Hn, <- reverse_step_low17.
  apply forward_reverse, mask17_range.
Qed.

(** In range, no table access of the loop is out of bounds. *)
Lemma while_loop_in_bounds (fuel : nat) :
  forall st, while_loop fuel p st <> OutOfBounds.
Proof.
  induction fuel as [| fuel IH]; intros [count b];
    rewrite while_loop_eq by exact Hp; cbn [fst snd];
    destruct (b =? seed); try discriminate.
  destruct (loop_body_total p Hp count b) as (c' & x' & Hb & _).
  rewrite Hb. cbn [bind]. apply IH.
Qed.

Lemma wrap32_add_l (a b : Z) : wrap32 (wrap32 a + b) = wrap32 (a + b).
Proof. unfold wrap32. apply Z.add_mod_idemp_l. lia. Qed.

(** The loop along a trace: [n] reverse steps that meet neither seed nor
    checkpoint, then one that lands on checkpoint [k]. *)
Lemma while_loop_trace (k : Z) (Hk : 1 <= k < 16) (n : nat) :
  forall count b,
    b <> seed ->
    (forall j, (1 <= j <= n)%nat -> is_mark p (reverse_n p j b) = false) ->
    reverse_n p (S n) b = checkpoint p k ->
    while_loop (S n) p (count, b)
    = Done (wrap32 (count + Z.of_nat (S n) + 8192 * k - 1)) /\
    while_loop n p (count, b) = OutOfFuel.
Proof.
  induction n as [| n IH]; intros count b Hne Hclean Hend;
    apply Z.eqb_neq in Hne;
    rewrite (while_loop_eq p Hp (S _)), loop_body_eq by exact Hp;
    cbn [fst snd]; rewrite Hne.
  - change (reverse_n p 1 b) with (reverse_step (poly_of p) b) in Hend.
    rewrite Hend, checkpoint_loop_hit by assumption. cbn [bind].
    rewrite while_loop_at_seed by exact Hp. split.
    + f_equal.
      replace (wrap32 (count + 1) + 8192 * k - 1)
        with (wrap32 (count + 1) + (8192 * k - 1)) by lia.
      rewrite wrap32_add_l. f_equal. lia.
    + rewrite while_loop_eq by exact Hp. cbn [fst snd]. now rewrite Hne.
  - assert (Hm : is_mark p (reverse_step (poly_of p) b) = false)
      by (apply (Hclean 1%nat); lia).
    rewrite checkpoint_loop_unmarked by assumption. cbn [bind].
    destruct (IH (wrap32 (count + 1)) (reverse_step (poly_of p) b))
      as [Hdone Hshort].
    + intros E. rewrite E, is_mark_seed in Hm by exact Hp. discriminate Hm.
    + intros j Hj. rewrite <- reverse_n_S_r. apply Hclean. lia.
    + now rewrite <- reverse_n_S_r.
    + split.
      * rewrite Hdone. f_equal.
        replace (wrap32 (count + 1) + Z.of_nat (S n) + 8192 * k - 1)
          with (wrap32 (count + 1) + (Z.of_nat (S n) + 8192 * k - 1)) by lia.
        rewrite wrap32_add_l. f_equal. lia.
      * rewrite (while_loop_eq p Hp (S n)), loop_body_eq by exact Hp.
        cbn [fst snd]. rewrite Hne.
        rewrite checkpoint_loop_unmarked by assumption. exact Hshort.
Qed.

End Cycle.

(** * What the initial mask lets through *)

Section InitialMask.

Lemma seed_identity_at (fuel : nat) (p : Z) :
  0 <= p < 4 -> reverse_count_p fuel p 1 = Done 0.
Proof.
  intros Hp. rewrite reverse_count_p_eq. now apply while_loop_at_seed.
Qed.

Lemma reverse_count_p_low21 (fuel : nat) (index bits : Z) :
  reverse_count_p fuel index (Z.land bits 0x0001FFFFF)
  = reverse_count_p fuel index bits.
Proof. now rewrite !reverse_count_p_eq, mask21_idem. Qed.

(** Bits 17-20 of the input matter only to the first test against the
    seed: when that test fails with and without them, they are gone after
    the first reverse step. *)
Lemma reverse_count_p_low17 (fuel : nat) (p bits : Z) :
  0 <= p < 4 ->
  Z.land bits 0x0001FFFFF <> seed -> Z.land bits 0x0001FFFF <> seed ->
  reverse_count_p fuel p (Z.land bits 0x0001FFFF)
  = reverse_count_p fuel p bits.
Proof.
  intros Hp H21 H17. rewrite !reverse_count_p_eq.
  rewrite (mask21_small (Z.land bits 0x0001FFFF)) by apply mask17_range.
  rewrite !(while_loop_eq p Hp). cbn [fst snd].
  apply Z.eqb_neq in H21, H17. rewrite H21, H17.
  destruct fuel as [| fuel]; [reflexivity |].
  rewrite !loop_body_eq by exact Hp.
  rewrite reverse_step_low17.
  rewrite <- (reverse_step_low17 _ (Z.land bits 0x0001FFFFF)).
  now rewrite mask21_mask17, reverse_step_low17.
Qed.

Lemma reverse_step_seed (p : Z) :
  0 <= p < 4 ->
  reverse_step (poly_of p) seed = forward_n p (Z.to_nat (period - 1)) seed.
Proof.
  intros Hp. pose proof (period_returns p Hp) as Hret.
  replace (Z.to_nat period) with (S (Z.to_nat (period - 1))) in Hret
    by (unfold period; lia).
  rewrite forward_n_S in Hret. rewrite <- Hret at 1.
  apply reverse_forward, forward_n_range, seed_range.
Qed.

(** When the register bits are the seed but a bit among 17-20 is set, the
    first test against the seed fails and the loop walks the whole last
    segment back to checkpoint 15. *)
Lemma seed_with_high_bits (p bits : Z) :
  0 <= p < 4 ->
  Z.land bits 0x0001FFFF = seed -> Z.land bits 0x0001FFFFF <> seed ->
  reverse_count_p spacing p bits = Done period.
Proof.
  intros Hp H17 H21. rewrite reverse_count_p_eq, (while_loop_eq p Hp).
  cbn [fst snd]. apply Z.eqb_neq in H21. rewrite H21.
  replace spacing with (S (Z.to_nat 8191)) by (unfold spacing; lia).
  rewrite loop_body_eq by exact Hp.
  rewrite <- reverse_step_low17, mask21_mask17, H17, reverse_step_seed
    by exact Hp.
  change (period - 1) with (position 15 + 8191).
  rewrite forward_n_split by lia.
  destruct (segment_spec p 15 Hp ltac:(lia)) as [Hclean _].
  change (gap 15) with 8192 in Hclean.
  assert (Hm : is_mark p (forward_n p (Z.to_nat 8191) (checkpoint p 15)) = false)
    by (apply Hclean; lia).
  rewrite checkpoint_loop_unmarked by assumption. cbn [bind].
  assert (Hnat : Z.to_nat 8191 = S (Z.to_nat 8190)) by lia.
  rewrite Hnat at 2. rewrite (while_loop_segment p Hp 15 ltac:(lia)).
  - apply f_equal. change (wrap32 (0 + 1)) with 1.
    change (position 15) with 122879. unfold period. lia.
  - lia.
  - intros i Hi. apply Hclean. lia.
  - rewrite <- Hnat. intros E.
    rewrite E, is_mark_seed in Hm by exact Hp. discriminate Hm.
  - change (wrap32 (0 + 1)) with 1. lia.
  - change (wrap32 (0 + 1)) with 1. change (2 ^ 32) with 4294967296. lia.
Qed.

End InitialMask.

(** * The claims *)

Section Claims.

(** C1 (as the code has it): for every polynomial index p in 0..3 and every
    checkpoint index k in 1..15, [reverse_count_p] on the stored entry
    [_end_buffers[p][k]] returns [8192 * k - 1], the entry's forward
    distance from the seed, within 8192 iterations. *)
Theorem checkpoint_count (p k : Z) :
  0 <= p < 4 -> 1 <= k <= 15 ->
  exists e,
    end_buffer_at p k = Done e /\
    forward_n p (Z.to_nat (8192 * k - 1)) seed = e /\
    reverse_count_p spacing p e = Done (8192 * k - 1).
Proof.
  intros Hp Hk. exists (checkpoint p k).
  assert (Hpos : position k = 8192 * k - 1)
    by (unfold position; destruct (Z.eqb_spec k 0); lia).
  pose proof (checkpoint_at_position p k Hp ltac:(lia)) as Hat.
  rewrite Hpos in Hat.
  split; [apply end_buffer_at_in_range; lia |]. split; [exact Hat |].
  rewrite <- Hat. apply reverse_count_position; [exact Hp |].
  unfold period. lia.
Qed.

Lemma checkpoint_count_witness :
  exists e,
    end_buffer_at 0 1 = Done e /\
    forward_n 0 (Z.to_nat (8192 * 1 - 1)) seed = e /\
    reverse_count_p spacing 0 e = Done (8192 * 1 - 1).
Proof. apply (checkpoint_count 0 1); lia. Defined.

(** C1 as stated fails: on the first checkpoint of polynomial 0 the routine
    returns 8191, and no amount of fuel makes it return 8192. *)
Lemma checkpoint_count_not_8192k :
  end_buffer_at 0 1 = Done 87453 /\
  reverse_count_p spacing 0 87453 = Done 8191 /\
  ~ (exists fuel, reverse_count_p fuel 0 87453 = Done (8192 * 1)).
Proof.
  assert (Hrun : reverse_count_p spacing 0 87453 = Done 8191).
  { change 87453 with (checkpoint 0 1).
    rewrite <- (checkpoint_at_position 0 1) by lia.
    apply reverse_count_position; unfold period; cbn; lia. }
  split; [reflexivity |]. split; [exact Hrun |].
  intros [fuel H]. rewrite reverse_count_p_eq in *.
  assert (H0 : 0 <= 0 < 4) by lia.
  pose proof (fuel_monotone 0 H0 _ _ _ H (fuel + spacing)%nat ltac:(lia)) as H1.
  pose proof (fuel_monotone 0 H0 _ _ _ Hrun (fuel + spacing)%nat ltac:(lia)) as H2.
  rewrite H1 in H2. injection H2 as E. lia.
Qed.

(** C2 (as the code has it): for an input on the cycle of polynomial p, if
    the loop meets neither seed nor checkpoint for n reverse steps and the
    next reverse step lands on checkpoint entry k (k in 1..15), then the
    loop body runs exactly n + 1 times and the value returned is
    (n + 1) + 8192 * k - 1: the number of reverse steps performed is added
    to the checkpoint's distance. *)
Theorem checkpoint_match_count (p k bits : Z) (n : nat) :
  0 <= p < 4 -> 1 <= k <= 15 ->
  on_cycle p (Z.land bits 0x0001FFFFF) ->
  Z.land bits 0x0001FFFFF <> seed ->
  (forall j, (1 <= j <= n)%nat ->
             is_mark p (reverse_n p j (Z.land bits 0x0001FFFFF)) = false) ->
  reverse_n p (S n) (Z.land bits 0x0001FFFFF) = checkpoint p k ->
  reverse_count_p (S n) p bits = Done (Z.of_nat (S n) + 8192 * k - 1) /\
  reverse_count_p n p bits = OutOfFuel.
Proof.
  intros Hp Hk Hcyc Hne Hclean Hend. rewrite !reverse_count_p_eq.
  destruct (while_loop_trace p Hp k ltac:(lia) n 0 _ Hne Hclean Hend)
    as [Hdone Hshort].
  split; [| exact Hshort]. rewrite Hdone. f_equal.
  apply wrap32_small.
  assert (Hn : (n < spacing)%nat).
  { destruct (Nat.lt_ge_cases n spacing) as [Hlt | Hge]; [exact Hlt |].
    exfalso.
    destruct (on_cycle_position p Hp _ Hcyc) as (s & Hs & Hat).
    pose proof (reverse_count_position p Hp s Hs) as Hret.
    rewrite Hat, reverse_count_p_eq, mask21_idem in Hret.
    rewrite (fuel_monotone p Hp _ _ _ Hret n Hge) in Hshort. discriminate. }
  pose proof spacing_Z. change (2 ^ 32) with 4294967296. lia.
Qed.

Lemma checkpoint_match_count_witness :
  reverse_count_p 2 0 87670 = Done (Z.of_nat 2 + 8192 * 1 - 1) /\
  reverse_count_p 1 0 87670 = OutOfFuel.
Proof.
  apply (checkpoint_match_count 0 1 87670 1).
  - lia.
  - lia.
  - exists (Z.to_nat 8193). vm_compute. reflexivity.
  - vm_compute. congruence.
  - intros j Hj. assert (j = 1%nat) as -> by lia. vm_compute. reflexivity.
  - vm_compute. reflexivity.
Defined.

(** C2 as stated fails: one step and two steps after checkpoint 1 of
    polynomial 0 the loop ends on entry 1, and the values returned are 8192
    and 8193, not 8192 * 1 - 1. *)
Lemma checkpoint_match_count_varies :
  (on_cycle 0 43835 /\
   reverse_n 0 1 43835 = checkpoint 0 1 /\
   reverse_count_p 1 0 43835 = Done 8192) /\
  (on_cycle 0 87670 /\
   reverse_n 0 2 87670 = checkpoint 0 1 /\
   reverse_count_p 2 0 87670 = Done 8193) /\
  8192 <> 8192 * 1 - 1.
Proof.
  split; [| split; [| lia]].
  - split; [exists (Z.to_nat 8192) | split]; vm_compute; reflexivity.
  - split; [exists (Z.to_nat 8193) | split]; vm_compute; reflexivity.
Qed.

(** C3: for every polynomial index p in 0..3 and every k in 0..15, stepping
    the seed forward 8192 * k times (with the forward step that
    [reverse_step] inverts) and handing the state to [reverse_count_p]
    returns 8192 * k; for p = 0 and k = 1 this is the 8192-step example. *)
Theorem round_trip (p k : Z) :
  0 <= p < 4 -> 0 <= k <= 15 ->
  reverse_count_p spacing p (forward_n p (Z.to_nat (8192 * k)) seed)
  = Done (8192 * k).
Proof.
  intros Hp Hk. apply reverse_count_position; [exact Hp |].
  unfold period. lia.
Qed.

Lemma round_trip_witness :
  reverse_count_p spacing 0 (forward_n 0 (Z.to_nat (8192 * 1)) seed)
  = Done (8192 * 1).
Proof. apply (round_trip 0 1); lia. Defined.

(** C4: for every polynomial index p in 0..3, [reverse_count_p] on the seed
    state 1 returns 0, whatever the loop budget. *)
Theorem seed_identity (p : Z) (fuel : nat) :
  0 <= p < 4 -> reverse_count_p fuel p 1 = Done 0.
Proof. apply seed_identity_at. Qed.

Lemma seed_identity_witness : reverse_count_p 0 0 1 = Done 0.
Proof. apply (seed_identity 0 0). lia. Defined.

(** C5: for every polynomial index p in 0..3 the reverse transition of the
    loop body is a bijection of the 17-bit register states: [forward_step]
    under the same tap mask maps 17-bit states to 17-bit states and
    composes with [reverse_step] to the identity in either order. *)
Theorem reverse_step_bijective (p x : Z) :
  0 <= p < 4 -> 0 <= x < 2 ^ 17 ->
  polynomial_at p = Done (poly_of p) /\
  0 <= forward_step (poly_of p) x < 2 ^ 17 /\
  0 <= reverse_step (poly_of p) x < 2 ^ 17 /\
  forward_step (poly_of p) (reverse_step (poly_of p) x) = x /\
  reverse_step (poly_of p) (forward_step (poly_of p) x) = x.
Proof.
  intros Hp Hx.
  split; [now apply polynomial_at_in_range |].
  split; [apply forward_step_range |].
  split; [apply reverse_step_range |].
  split; [now apply forward_reverse | now apply reverse_forward].
Qed.

Lemma reverse_step_bijective_witness :
  polynomial_at 0 = Done (poly_of 0) /\
  0 <= forward_step (poly_of 0) 87453 < 2 ^ 17 /\
  0 <= reverse_step (poly_of 0) 87453 < 2 ^ 17 /\
  forward_step (poly_of 0) (reverse_step (poly_of 0) 87453) = 87453 /\
  reverse_step (poly_of 0) (forward_step (poly_of 0) 87453) = 87453.
Proof.
  apply (reverse_step_bijective 0 87453); [lia |].
  change (2 ^ 17) with 131072. lia.
Defined.

(** C6: for every polynomial index p in 0..3 and every input whose masked
    buffer is reached from the seed by forward steps, the loop body runs at
    most 8192 times before [reverse_count_p] returns; the value returned is
    the distance of the buffer from the seed, below the period. *)
Theorem bounded_work (p bits : Z) :
  0 <= p < 4 -> on_cycle p (Z.land bits 0x0001FFFFF) ->
  exists count,
    reverse_count_p spacing p bits = Done count /\
    0 <= count < period /\
    forward_n p (Z.to_nat count) seed = Z.land bits 0x0001FFFFF.
Proof.
  intros Hp Hcyc.
  destruct (on_cycle_position p Hp _ Hcyc) as (s & Hs & Hat).
  exists s. split; [| now split].
  pose proof (reverse_count_position p Hp s Hs) as Hret.
  rewrite Hat in Hret. rewrite reverse_count_p_eq in *.
  now rewrite mask21_idem in Hret.
Qed.

Lemma bounded_work_witness :
  exists count,
    reverse_count_p spacing 0 43835 = Done count /\
    0 <= count < period /\
    forward_n 0 (Z.to_nat count) seed = Z.land 43835 0x0001FFFFF.
Proof.
  apply (bounded_work 0 43835); [lia |].
  exists (Z.to_nat 8192). vm_compute. reflexivity.
Defined.

(** C7: for every polynomial index p in 0..3, an input whose register bits
    are not on the cycle of p exhausts every loop budget; in particular from
    the zero buffer every number of reverse steps gives the zero buffer,
    which is neither the seed nor a checkpoint, and [reverse_count_p] on 0
    never returns. *)
Theorem off_cycle_diverges (p : Z) :
  0 <= p < 4 ->
  (forall bits fuel,
      ~ on_cycle p (Z.land bits 0x0001FFFF) ->
      reverse_count_p fuel p bits = OutOfFuel) /\
  ~ on_cycle p 0 /\
  (forall n, reverse_n p n 0 = 0) /\
  is_mark p 0 = false /\
  (forall fuel, reverse_count_p fuel p 0 = OutOfFuel).
Proof.
  intros Hp.
  assert (Hgen : forall bits fuel,
             ~ on_cycle p (Z.land bits 0x0001FFFF) ->
             reverse_count_p fuel p bits = OutOfFuel).
  { intros bits fuel Hoff. rewrite reverse_count_p_eq.
    destruct (while_loop fuel p (0, Z.land bits 0x0001FFFFF)) as [c | |] eqn:E.
    - apply while_loop_done_on_cycle in E; [| exact Hp].
      rewrite mask21_mask17 in E. contradiction.
    - now apply while_loop_in_bounds in E.
    - reflexivity. }
  split; [exact Hgen |].
  split; [now apply zero_off_cycle |].
  split; [apply reverse_n_zero |].
  split.
  - apply index_cases in Hp. each_case Hp; reflexivity.
  - intros fuel. apply Hgen. now apply zero_off_cycle.
Qed.

Lemma off_cycle_diverges_witness :
  ~ on_cycle 0 (Z.land 0 0x0001FFFF) /\
  reverse_count_p spacing 0 0 = OutOfFuel.
Proof.
  assert (H0 : 0 <= 0 < 4) by lia.
  split.
  - exact (proj1 (proj2 (off_cycle_diverges 0 H0))).
  - apply (proj1 (off_cycle_diverges 0 H0)).
    exact (proj1 (proj2 (off_cycle_diverges 0 H0))).
Defined.

(** C8 fails on the code: the initial mask keeps 21 bits, so an input
    whose 17 register bits are the seed but which has bit 17 set enters the
    loop and yields 131071, while the same input cut to 17 bits yields 0. *)
Theorem high_bits_change_result :
  reverse_count_p spacing 0 0x20001 = Done 131071 /\
  reverse_count_p spacing 0 (Z.land 0x20001 0x0001FFFF) = Done 0.
Proof.
  split.
  - apply (seed_with_high_bits 0 0x20001); [lia | reflexivity | discriminate].
  - now apply seed_identity_at.
Qed.

(** C9: [reverse_count_p] performs an out-of-bounds table access exactly
    when the index is outside 0..3: in range every access of
    [_polynomials] and [_end_buffers] is in bounds for every loop budget and
    input, and out of range the first access, in the loop condition, is
    already out of bounds. *)
Theorem index_bounds_safety (fuel : nat) (index bits : Z) :
  reverse_count_p fuel index bits = OutOfBounds <-> ~ (0 <= index < 4).
Proof.
  split.
  - intros H Hin. rewrite reverse_count_p_eq in H.
    now apply (while_loop_in_bounds index Hin) in H.
  - intros Hout. rewrite reverse_count_p_eq.
    assert (E : end_buffer_at index 0 = OutOfBounds).
    { unfold end_buffer_at, index_into.
      destruct (Z.ltb_spec index 0) as [Hneg | Hpos]; [reflexivity |].
      destruct (nth_error _end_buffers (Z.to_nat index)) as [row |] eqn:Hn;
        [| reflexivity].
      assert (Hlt : (Z.to_nat index < List.length _end_buffers)%nat)
        by (apply nth_error_Some; congruence).
      cbn in Hlt. lia. }
    destruct fuel; cbn [while_loop]; now rewrite E.
Qed.

(** C10: for every polynomial index p in 0..3, every count and every buffer,
    one execution of the loop body completes with a buffer below 2^17, and
    it gives the same count and buffer when bits 17 and above of the
    incoming buffer are cleared first. *)
Theorem buffer_width_invariant (p count buffer : Z) :
  0 <= p < 4 ->
  exists count' buffer',
    loop_body p (count, buffer) = Done (count', buffer') /\
    0 <= buffer' < 2 ^ 17 /\
    loop_body p (count, Z.land buffer 0x0001FFFF) = Done (count', buffer').
Proof.
  intros Hp.
  destruct (loop_body_total p Hp count buffer) as (c' & x' & Hb & Hx).
  exists c', x'. split; [exact Hb |]. split.
  - destruct Hx as [-> | [-> _]]; [apply reverse_step_range | apply seed_range].
  - rewrite loop_body_eq in * by exact Hp.
    now rewrite reverse_step_low17.
Qed.

Lemma buffer_width_invariant_witness :
  exists count' buffer',
    loop_body 0 (0, 0x1FFFFF) = Done (count', buffer') /\
    0 <= buffer' < 2 ^ 17 /\
    loop_body 0 (0, Z.land 0x1FFFFF 0x0001FFFF) = Done (count', buffer').
Proof. apply (buffer_width_invariant 0 0 0x1FFFFF). lia. Defined.

End Claims.

(** * Further properties of the routine and its tables *)

Section Coverage.

Variable p : Z.
Hypothesis Hp : 0 <= p < 4.

Lemma period_nat : Z.of_nat (Z.to_nat period) = 131071.
Proof. unfold period. now rewrite Z2Nat.id. Qed.

(** The states met in one period, in order. *)
Lemma orbit_NoDup :
  NoDup (map (fun i => forward_n p i seed) (seq 0 (Z.to_nat period))).
Proof.
  apply NoDup_map_NoDup_ForallPairs; [| apply seq_NoDup].
  intros i j Hi Hj Heq. apply in_seq in Hi, Hj.
  pose proof period_nat as HT.
  destruct (Nat.lt_trichotomy i j) as [Hlt | [-> | Hgt]]; [| reflexivity |];
    exfalso.
  - apply (orbit_injective p (Z.of_nat i) (Z.of_nat j) Hp);
      [lia | unfold period; lia |]. now rewrite !Nat2Z.id.
  - apply (orbit_injective p (Z.of_nat j) (Z.of_nat i) Hp);
      [lia | unfold period; lia |]. now rewrite !Nat2Z.id.
Qed.

(** A period has as many states as there are nonzero 17-bit values, so it
    meets every one of them. *)
Lemma nonzero_on_cycle (x : Z) : 0 < x < 2 ^ 17 -> on_cycle p x.
Proof.
  intros Hx. pose proof period_nat as HT.
  set (T := Z.to_nat period) in *.
  assert (Hincl : incl (map Z.of_nat (seq 1 T))
                       (map (fun i => forward_n p i seed) (seq 0 T))).
  { apply NoDup_length_incl.
    - apply orbit_NoDup.
    - rewrite !length_map, !length_seq. apply Nat.le_refl.
    - intros y Hy. apply in_map_iff in Hy as (i & <- & _).
      pose proof (forward_n_range p i seed seed_range) as Hr.
      assert (Hnz : forward_n p i seed <> 0)
        by (intros E; apply (zero_off_cycle p); now exists i).
      apply in_map_iff. exists (Z.to_nat (forward_n p i seed)).
      split; [lia |]. apply in_seq.
      change (2 ^ 17) with 131072 in Hr. lia. }
  assert (Hin : In x (map Z.of_nat (seq 1 T))).
  { apply in_map_iff. exists (Z.to_nat x). split; [lia |].
    apply in_seq. change (2 ^ 17) with 131072 in Hx. lia. }
  apply Hincl, in_map_iff in Hin as (i & Hi & _). now exists i.
Qed.

Lemma mask21_seed_mask17 (bits : Z) :
  Z.land bits 0x0001FFFFF = seed -> Z.land bits 0x0001FFFF = seed.
Proof. intros H. now rewrite <- mask21_mask17, H. Qed.


(** What the routine returns within [spacing] iterations, on any input
    whose register bits are not all zero. *)
Lemma returns_on_nonzero (bits : Z) :
  Z.land bits 0x0001FFFF <> 0 ->
  exists c,
    reverse_count_p spacing p bits = Done c /\ 0 <= c <= period /\
    forward_n p (Z.to_nat c) seed = Z.land bits 0x0001FFFF.
Proof.
  intros Hnz.
  destruct (Z.eq_dec (Z.land bits 0x0001FFFFF) seed) as [H21 | H21].
  - exists 0. rewrite reverse_count_p_eq, H21, while_loop_at_seed by exact Hp.
    rewrite (mask21_seed_mask17 bits H21). unfold period.
    split; [reflexivity |]. split; [lia | reflexivity].
  - destruct (Z.eq_dec (Z.land bits 0x0001FFFF) seed) as [H17 | H17].
    + exists period. rewrite seed_with_high_bits by assumption.
      rewrite H17, period_returns by exact Hp. unfold period.
      split; [reflexivity |]. split; [lia | reflexivity].
    + pose proof (mask17_range bits) as Hr.
      destruct (on_cycle_position p Hp (Z.land bits 0x0001FFFF))
        as (s & Hs & Hat); [apply nonzero_on_cycle; lia |].
      exists s. rewrite <- reverse_count_p_low17 by assumption.
      rewrite <- Hat at 1. rewrite reverse_count_position by assumption.
      split; [reflexivity |]. split; [lia | exact Hat].
Qed.

Lemma diverges_on_zero (bits : Z) (fuel : nat) :
  Z.land bits 0x0001FFFF = 0 -> reverse_count_p fuel p bits = OutOfFuel.
Proof.
  intros Hz. rewrite reverse_count_p_eq.
  destruct (while_loop fuel p (0, Z.land bits 0x0001FFFFF)) as [c | |] eqn:E.
  - apply while_loop_done_on_cycle in E; [| exact Hp].
    rewrite mask21_mask17, Hz in E. now apply zero_off_cycle in E.
  - now apply while_loop_in_bounds in E.
  - reflexivity.
Qed.

(** Short of one iteration, the loop along a segment is still running. *)
Lemma while_loop_segment_short (k : Z) (Hk : 0 <= k < 16) :
  forall (j : nat) (count : Z),
    (forall i, (1 <= i <= j)%nat ->
               is_mark p (forward_n p i (checkpoint p k)) = false) ->
    forward_n p (S j) (checkpoint p k) <> seed ->
    while_loop j p (count, forward_n p (S j) (checkpoint p k)) = OutOfFuel.
Proof.
  induction j as [| j IH]; intros count Hclean Hns;
    rewrite while_loop_eq by exact Hp; cbn [fst snd];
    apply Z.eqb_neq in Hns; rewrite Hns; [reflexivity |].
  rewrite loop_body_eq, forward_n_S, reverse_forward
    by (try exact Hp; apply forward_n_range, checkpoint_range; assumption).
  assert (Hm : is_mark p (forward_n p (S j) (checkpoint p k)) = false)
    by (apply Hclean; lia).
  rewrite checkpoint_loop_unmarked by assumption. cbn [bind].
  apply IH.
  - intros i Hi. apply Hclean. lia.
  - intros E. rewrite E, is_mark_seed in Hm by exact Hp. discriminate Hm.
Qed.

Lemma reverse_n_forward_n_le (j s : nat) (x : Z) :
  (j <= s)%nat -> 0 <= x < 2 ^ 17 ->
  reverse_n p j (forward_n p s x) = forward_n p (s - j) x.
Proof.
  intros Hjs Hx.
  replace s with (j + (s - j))%nat at 1 by lia.
  rewrite forward_n_add. apply reverse_n_forward_n.
  now apply forward_n_range.
Qed.

End Coverage.

Section ParityLoop.

Lemma xor_bits_low17 (m : Z) (l : list Z) :
  (forall i, In i l -> 0 <= i < 17) ->
  forall r, xor_bits (Z.land m 0x0001FFFF) l r = xor_bits m l r.
Proof.
  induction l as [| i l IH]; intros Hl r; [reflexivity |].
  rewrite !xor_bits_cons.
  rewrite IH by (intros j Hj; apply Hl; now right).
  assert (Hi : 0 <= i < 17) by (apply Hl; now left).
  rewrite !shifted_bit by lia.
  change 0x0001FFFF with (Z.ones 17).
  now rewrite Z.land_spec, Z.ones_spec_low, andb_true_r by lia.
Qed.

Lemma parity_positions_range (i : Z) :
  In i (map Z.of_nat (seq 0 17)) -> 0 <= i < 17.
Proof. intros Hi. apply in_map_iff in Hi as (n & <- & Hn). apply in_seq in Hn. lia. Qed.

End ParityLoop.

(** * Extra properties *)

Section Extras.

(** X1: for every polynomial index p in 0..3 and every distance s below the
    period 131071, [reverse_count_p] on the state s forward steps after the
    seed returns s, within 8192 iterations. *)
Theorem count_is_distance (p s : Z) :
  0 <= p < 4 -> 0 <= s < period ->
  reverse_count_p spacing p (forward_n p (Z.to_nat s) seed) = Done s.
Proof. intros Hp Hs. now apply reverse_count_position. Qed.

Lemma count_is_distance_witness :
  reverse_count_p spacing 2 (forward_n 2 (Z.to_nat 100000) seed) = Done 100000.
Proof. apply (count_is_distance 2 100000); unfold period; lia. Defined.



(** X3: under each of the four tap masks the register has the maximal
    period: 131071 forward steps bring the seed back, no smaller positive
    number does, states at different distances below the period differ, and
    every nonzero 17-bit state is met. *)
Theorem maximal_period (p : Z) :
  0 <= p < 4 ->
  forward_n p (Z.to_nat period) seed = seed /\
  (forall s, 0 < s < period -> forward_n p (Z.to_nat s) seed <> seed) /\
  (forall i j, 0 <= i < j -> j < period ->
     forward_n p (Z.to_nat i) seed <> forward_n p (Z.to_nat j) seed) /\
  (forall x, 0 < x < 2 ^ 17 -> on_cycle p x).
Proof.
  intros Hp.
  split; [now apply period_returns |].
  split; [intros s Hs; now apply no_early_seed |].
  split; [intros i j Hij Hj; now apply orbit_injective |].
  intros x Hx. now apply nonzero_on_cycle.
Qed.

Lemma maximal_period_witness :
  forward_n 3 (Z.to_nat period) seed = seed /\ on_cycle 3 2.
Proof.
  assert (H : 0 <= 3 < 4) by lia.
  split.
  - exact (proj1 (maximal_period 3 H)).
  - apply (proj2 (proj2 (proj2 (maximal_period 3 H)))).
    change (2 ^ 17) with 131072. lia.
Defined.

(** X4: for an index in 0..3 the routine returns, within 8192 iterations,
    exactly on the inputs whose low 17 bits are not all zero; when they are
    all zero it exhausts every loop budget. *)
Theorem returns_iff_nonzero (p bits : Z) :
  0 <= p < 4 ->
  (Z.land bits 0x0001FFFF <> 0 ->
   exists c, reverse_count_p spacing p bits = Done c) /\
  (Z.land bits 0x0001FFFF = 0 ->
   forall fuel, reverse_count_p fuel p bits = OutOfFuel).
Proof.
  intros Hp. split.
  - intros Hnz.
    destruct (returns_on_nonzero p Hp bits Hnz) as (c & Hret & _).
    now exists c.
  - intros Hz fuel. now apply diverges_on_zero.
Qed.

Lemma returns_iff_nonzero_witness :
  (exists c, reverse_count_p spacing 1 0xFFFE0005 = Done c) /\
  reverse_count_p spacing 1 0xFFFE0000 = OutOfFuel.
Proof.
  assert (H : 0 <= 1 < 4) by lia.
  split.
  - apply (proj1 (returns_iff_nonzero 1 0xFFFE0005 H)). discriminate.
  - apply (proj2 (returns_iff_nonzero 1 0xFFFE0000 H)). reflexivity.
Defined.

(** X5: for an index in 0..3 and the state s steps after the seed,
    0 < s < 131071, the loop body runs exactly j times, where j in 1..8192
    is the distance of s from the last checkpoint position (or the seed)
    strictly before it: a budget of j returns s and a budget of j - 1 is
    exhausted. *)
Theorem iterations_exact (p s : Z) :
  0 <= p < 4 -> 0 < s < period ->
  exists k j,
    0 <= k < 16 /\ 1 <= j <= 8192 /\ s = position k + j /\
    reverse_count_p (Z.to_nat j) p (forward_n p (Z.to_nat s) seed) = Done s /\
    reverse_count_p (Z.to_nat (j - 1)) p (forward_n p (Z.to_nat s) seed)
    = OutOfFuel.
Proof.
  intros Hp Hs.
  destruct (position_split s Hs) as (k & j & Hk & Hj & -> & Hlast).
  exists k, j.
  assert (Hj' : 1 <= j <= 8192) by (unfold gap in Hj; destruct (k =? 0); lia).
  split; [exact Hk |]. split; [exact Hj' |]. split; [reflexivity |].
  rewrite !reverse_count_p_eq.
  rewrite mask21_small by apply forward_n_range, seed_range.
  rewrite forward_n_split by (try assumption; lia).
  destruct (segment_spec p k Hp Hk) as [Hclean Hnext].
  assert (Hnat : Z.to_nat j = S (Z.to_nat (j - 1))) by lia.
  assert (Hns : forward_n p (Z.to_nat j) (checkpoint p k) <> seed).
  { destruct (Z.eq_dec j (gap k)) as [-> | Hin].
    - rewrite Hnext, Z.mod_small by lia.
      apply seed_not_checkpoint; [exact Hp | lia].
    - intros E.
      assert (Hm : is_mark p (forward_n p (Z.to_nat j) (checkpoint p k)) = false)
        by (apply Hclean; lia).
      rewrite E, is_mark_seed in Hm by exact Hp. discriminate Hm. }
  rewrite Hnat in Hns |- *. split.
  - rewrite (while_loop_segment p Hp k Hk).
    + apply f_equal. lia.
    + lia.
    + intros i Hi. apply Hclean. lia.
    + exact Hns.
    + lia.
    + change (2 ^ 32) with 4294967296. lia.
  - apply (while_loop_segment_short p Hp k Hk).
    + intros i Hi. apply Hclean. lia.
    + exact Hns.
Qed.

Lemma iterations_exact_witness :
  exists k j,
    0 <= k < 16 /\ 1 <= j <= 8192 /\ 16383 = position k + j /\
    reverse_count_p (Z.to_nat j) 0 (forward_n 0 (Z.to_nat 16383) seed)
    = Done 16383 /\
    reverse_count_p (Z.to_nat (j - 1)) 0 (forward_n 0 (Z.to_nat 16383) seed)
    = OutOfFuel.
Proof. apply (iterations_exact 0 16383); unfold period; lia. Defined.

(** X6: for an index in 0..3 the scan of lines 116-121 acts at most once:
    a buffer equal to table entry k (k in 1..15) becomes the seed and the
    count becomes count + 8192 * k - 1 modulo 2^32; a buffer equal to none
    of the entries 1..15 leaves count and buffer as they are. *)
Theorem checkpoint_scan_effect (p count buffer : Z) :
  0 <= p < 4 ->
  (forall k, 1 <= k < 16 -> end_buffer_at p k = Done buffer ->
     checkpoint_loop p checkpoint_indices (count, buffer)
     = Done (wrap32 (count + 8192 * k - 1), seed)) /\
  ((forall k, 1 <= k < 16 -> end_buffer_at p k <> Done buffer) ->
     checkpoint_loop p checkpoint_indices (count, buffer)
     = Done (count, buffer)).
Proof.
  intros Hp. split.
  - intros k Hk Hat. rewrite end_buffer_at_in_range in Hat by lia.
    injection Hat as <-. now apply checkpoint_loop_hit.
  - intros Hnone. apply checkpoint_loop_skip; [exact Hp |].
    intros i Hi. apply checkpoint_indices_range in Hi. split; [lia |].
    intros ->. apply (Hnone i Hi). apply end_buffer_at_in_range; lia.
Qed.

Lemma checkpoint_scan_effect_witness :
  checkpoint_loop 0 checkpoint_indices (5, checkpoint 0 3)
  = Done (wrap32 (5 + 8192 * 3 - 1), seed).
Proof.
  apply (proj1 (checkpoint_scan_effect 0 5 (checkpoint 0 3) ltac:(lia)) 3);
    [lia | reflexivity].
Defined.

(** X7: for an index in 0..3 and any loop budget, an input whose low 17
    bits differ from the seed gives the same outcome as its low 17 bits
    alone: bits 17 to 31 are ignored. *)
Theorem high_bits_ignored (p bits : Z) (fuel : nat) :
  0 <= p < 4 -> Z.land bits 0x0001FFFF <> seed ->
  reverse_count_p fuel p bits
  = reverse_count_p fuel p (Z.land bits 0x0001FFFF).
Proof.
  intros Hp H17. symmetry. apply reverse_count_p_low17; [exact Hp | | exact H17].
  intros H21. now apply H17, mask21_seed_mask17.
Qed.

Lemma high_bits_ignored_witness :
  reverse_count_p 1 0 0xFFFEAB3B
  = reverse_count_p 1 0 (Z.land 0xFFFEAB3B 0x0001FFFF).
Proof. apply (high_bits_ignored 0 0xFFFEAB3B 1); [lia | discriminate]. Defined.

(** X8: for an index in 0..3, an input whose low 17 bits are the seed but
    which has a bit among 17-20 set does not stop at once: the routine
    returns the full period 131071. *)
Theorem seed_with_stray_bits (p bits : Z) :
  0 <= p < 4 ->
  Z.land bits 0x0001FFFF = seed -> Z.land bits 0x0001FFFFF <> seed ->
  reverse_count_p spacing p bits = Done period.
Proof. intros Hp H17 H21. now apply seed_with_high_bits. Qed.

Lemma seed_with_stray_bits_witness :
  reverse_count_p spacing 3 0x001E0001 = Done period.
Proof.
  apply (seed_with_stray_bits 3 0x001E0001); [lia | reflexivity | discriminate].
Defined.

(** X9: for an index in 0..3 and a nonzero 17-bit input, the count returned
    is the least number of reverse steps that lead from the input to the
    seed: the checkpoint shortcut returns what plain reverse counting would. *)
Theorem count_is_least_reverse_steps (p x : Z) :
  0 <= p < 4 -> 0 < x < 2 ^ 17 ->
  exists c,
    reverse_count_p spacing p x = Done c /\
    reverse_n p (Z.to_nat c) x = seed /\
    forall j, 0 <= j < c -> reverse_n p (Z.to_nat j) x <> seed.
Proof.
  intros Hp Hx.
  destruct (on_cycle_position p Hp x (nonzero_on_cycle p Hp x Hx))
    as (s & Hs & <-).
  exists s. split; [now apply reverse_count_position |].
  split; [apply reverse_n_forward_n, seed_range |].
  intros j Hj.
  rewrite reverse_n_forward_n_le by (try apply seed_range; lia).
  replace (Z.to_nat s - Z.to_nat j)%nat with (Z.to_nat (s - j)) by lia.
  apply no_early_seed; [exact Hp | lia].
Qed.

Lemma count_is_least_reverse_steps_witness :
  exists c,
    reverse_count_p spacing 0 87453 = Done c /\
    reverse_n 0 (Z.to_nat c) 87453 = seed /\
    forall j, 0 <= j < c -> reverse_n 0 (Z.to_nat j) 87453 <> seed.
Proof.
  apply (count_is_least_reverse_steps 0 87453); [lia |].
  change (2 ^ 17) with 131072. lia.
Defined.

(** X10: the loop of lines 109-111, started from result 0, computes the
    parity of the number of set bits among the low 17 bits of
    [masked_buff]; higher bits do not enter. *)
Theorem parity_loop_low_bits (masked_buff : Z) :
  parity_loop masked_buff 0 = bit_parity (Z.land masked_buff 0x0001FFFF).
Proof.
  rewrite <- parity_loop_bit_parity by apply mask17_range.
  rewrite !parity_loop_xor_bits. symmetry.
  apply xor_bits_low17, parity_positions_range.
Qed.

(** X11: in each row of [_end_buffers], 8192 reverse steps lead from an
    entry to the entry before it (8191 from entry 1 to the seed, 8192 from
    the seed to entry 15), and no state strictly in between is the seed or
    an entry of the row. *)
Theorem checkpoint_spacing (p k : Z) :
  0 <= p < 4 -> 0 <= k < 16 ->
  reverse_n p (Z.to_nat (gap k)) (checkpoint p ((k + 1) mod 16))
  = checkpoint p k /\
  forall j, 1 <= j < gap k ->
    is_mark p (reverse_n p (Z.to_nat j) (checkpoint p ((k + 1) mod 16))) = false.
Proof.
  intros Hp Hk.
  destruct (segment_spec p k Hp Hk) as [Hclean Hnext].
  pose proof (checkpoint_range p k Hp Hk) as Hr.
  assert (Hg : 0 < gap k) by (unfold gap; destruct (k =? 0); lia).
  rewrite <- Hnext. split.
  - now apply reverse_n_forward_n.
  - intros j Hj.
    rewrite reverse_n_forward_n_le by (try assumption; lia).
    apply Hclean. lia.
Qed.

Lemma checkpoint_spacing_witness :
  reverse_n 2 (Z.to_nat (gap 15)) (checkpoint 2 ((15 + 1) mod 16))
  = checkpoint 2 15 /\
  forall j, 1 <= j < gap 15 ->
    is_mark 2 (reverse_n 2 (Z.to_nat j) (checkpoint 2 ((15 + 1) mod 16))) = false.
Proof. apply (checkpoint_spacing 2 15); lia. Defined.

(** X12: every row of [_end_buffers] is well formed: for an index in 0..3
    each of the 16 reads is in bounds and gives a nonzero 17-bit value, the
    value is the seed exactly at entry 0, and no value occurs at two
    entries of the row. *)
Theorem table_well_formed (p k : Z) :
  0 <= p < 4 -> 0 <= k < 16 ->
  exists e,
    end_buffer_at p k = Done e /\
    (0 < e < 2 ^ 17) /\
    (e = seed <-> k = 0) /\
    forall k', 0 <= k' < 16 -> end_buffer_at p k' = Done e -> k' = k.
Proof.
  intros Hp Hk. exists (checkpoint p k).
  split; [now apply end_buffer_at_in_range |].
  pose proof (checkpoint_range p k Hp Hk) as Hr.
  assert (Hnz : checkpoint p k <> 0).
  { intros E. apply (zero_off_cycle p). rewrite <- E.
    now apply on_cycle_checkpoint. }
  split; [lia |]. split.
  - split.
    + intros E. destruct (Z.eq_dec k 0) as [-> | Hk0]; [reflexivity |].
      exfalso. apply (seed_not_checkpoint p k Hp); [lia | exact E].
    + intros ->. now apply checkpoint_0.
  - intros k' Hk' Hat. rewrite end_buffer_at_in_range in Hat by assumption.
    injection Hat as Heq. now apply (checkpoint_injective p).
Qed.

Lemma table_well_formed_witness :
  exists e,
    end_buffer_at 1 7 = Done e /\
    (0 < e < 2 ^ 17) /\
    (e = seed <-> 7 = 0) /\
    forall k', 0 <= k' < 16 -> end_buffer_at 1 k' = Done e -> k' = 7.
Proof. apply (table_well_formed 1 7); lia. Defined.

End Extras.
